(** * RLMAccessorContext: the object accessor context of src/Realm/RLMAccessor.hpp

    A shallow embedding of the accessor context that mediates between
    Objective-C dynamic values ([id]) and the typed values of the storage
    engine.  The inline members of the header are translated one by one;
    members that the header only declares are modelled separately and are
    marked as such. *)

From Stdlib Require Import ZArith Ascii String.
From stdpp Require Import base strings list gmap.

Set Warnings "-register-all".

(** ** Results of calls that may throw *)

(** The error kinds of the accessor contract. *)
Inductive ErrorKind :=
| UnsupportedType
| TypeMismatch
| MissingRequiredProperty
| InvalidReference.

(** What a call can throw: the C++ exception of the header, an Objective-C
    runtime exception, or an error of the accessor contract. [out_of_fuel] is
    no exception of the program: it marks a resolution cut off by the bound
    on nesting that makes the recursion below structural. *)
Inductive exception :=
| std_logic_error (what : string)
| NSInvalidArgumentException (reason : string)
| accessor_error (kind : ErrorKind) (detail : string)
| out_of_fuel.

(** [std::logic_error] is only thrown for the type-erased scalar. *)
Definition error_kind (e : exception) : option ErrorKind :=
  match e with
  | std_logic_error _ => Some UnsupportedType
  | NSInvalidArgumentException _ => None
  | accessor_error k _ => Some k
  | out_of_fuel => None
  end.

Inductive result (A : Type) :=
| Return (a : A)
| Throw (e : exception).
Arguments Return {A} a.
Arguments Throw {A} e.

Definition result_bind {A B} (r : result A) (k : A -> result B) : result B :=
  match r with
  | Return a => k a
  | Throw e => Throw e
  end.

Definition result_map {A B} (f : A -> B) (r : result A) : result B :=
  result_bind r (fun a => Return (f a)).

(** ** C scalar types *)

(** The least [long long]. *)
Definition LLONG_MIN : Z := (- 2 ^ 63)%Z.

(** The top bit of a byte. *)
Definition top_bit (c : ascii) : bool :=
  match c with
  | Ascii _ _ _ _ _ _ _ b7 => b7
  end.

(** Every byte of the string is below 128: its top bit is clear. *)
Definition seven_bit (bytes : string) : Prop :=
  Forall (fun c => top_bit c = false) (list_ascii_of_string bytes).

(** [float] and [double] and the conversions of C between them and the
    integers are those of the platform, and so are the conversions of
    Foundation that the header relies on. *)
Class CScalars := {
  float : Type;
  double : Type;
  float_of_double : double -> float;
  double_of_float : float -> double;
  float_of_longlong : Z -> float;
  double_of_longlong : Z -> double;
  longlong_of_float : float -> Z;
  longlong_of_double : double -> Z;
  bool_of_float : float -> bool;
  bool_of_double : double -> bool;
  (** -[NSNumber boolValue] of a number made from an integer: NO for zero,
      YES for the other values, [LLONG_MIN] apart, for which the platforms
      differ. *)
  bool_of_longlong : Z -> bool;
  bool_of_longlong_zero : bool_of_longlong 0 = false;
  bool_of_longlong_nonzero :
    forall z : Z, z <> 0%Z -> z <> LLONG_MIN -> bool_of_longlong z = true;
  (** -[NSString boolValue] and friends parse the text. *)
  NSString_boolValue : string -> bool;
  NSString_longLongValue : string -> Z;
  NSString_doubleValue : string -> double;
  NSString_floatValue : string -> float;
  (** +[NSString stringWithUTF8String:] decodes the bytes of a C string:
      [None] when they are not valid UTF-8. Bytes below 128 stand for
      themselves. *)
  NSString_fromUTF8 : string -> option string;
  NSString_fromUTF8_seven_bit :
    forall bytes : string, seven_bit bytes -> NSString_fromUTF8 bytes = Some bytes
}.

(** ** Values of the storage engine *)

(** [realm::StringData]: [data v] is what [v.data()] points at, [None] for the
    null pointer; the [size()] bytes of the string are followed by a
    terminating zero byte, as the engine stores them. *)
Record StringData := mkStringData { data : option string }.

#[export] Instance StringData_eq_dec : EqDecision StringData.
Proof. solve_decision. Defined.

Definition BinaryData := option (list Byte.byte).

Record Timestamp := mkTimestamp { seconds : Z; nanoseconds : Z }.

(** [realm::Mixed] is never built by this context. *)
Inductive Mixed :=
| Mixed_int (z : Z)
| Mixed_bool (b : bool)
| Mixed_string (s : StringData)
| Mixed_binary (b : BinaryData)
| Mixed_timestamp (t : Timestamp).

(** Handles of the engine: a table, a link list owned by one cell, a query
    over a table evaluated when read, one row. *)
Record TableRef := mkTableRef { table_name : string }.
Record List := mkList { list_table : string; list_row : nat; list_column : nat }.
Record Object := mkObject { object_type : string; row_index : nat }.

Section WithCScalars.
Context `{CScalars}.

(** A stored cell. *)
Inductive Value :=
| VNull
| VBool (b : bool)
| VInt (z : Z)
| VFloat (f : float)
| VDouble (d : double)
| VString (s : StringData)
| VBinary (b : BinaryData)
| VTimestamp (t : Timestamp)
| VLink (target : nat)
| VList (items : list Value).

Abbreviation Row := (list Value).
Abbreviation Table := (list (list Value)).

Record Results := mkResults { results_table : string; results_query : Row -> bool }.

Inductive Collection :=
| OfTable (t : TableRef)
| OfList (l : List)
| OfResults (r : Results).

(** ** Dynamic values *)

(** What an NSNumber holds: [@(v)] keeps the C type of [v]. *)
Inductive number :=
| numberWithBool (b : bool)
| numberWithLongLong (z : Z)
| numberWithDouble (d : double)
| numberWithFloat (f : float).

(** An Objective-C object pointer. [NSNull] is the one shared instance
    [NSNull.null]; [nil] is the null pointer. An NSString is given by its
    UTF-8 bytes, an NSDate by its interval since the reference date. *)
Inductive id :=
| nil
| NSNull
| NSNumber (n : number)
| NSString (s : string)
| NSData (d : list Byte.byte)
| NSDate (t : double)
| NSArray (l : list id)
| NSDictionary (kvs : list (string * id))
| RLMObjectBase (o : Object)
| RLMCollection (c : Collection).

Record OptionalId := mkOptionalId { value : id }.

(** *** Messages *)

Definition unrecognized_selector {A} (sel : string) : result A :=
  Throw (NSInvalidArgumentException ("unrecognized selector " ++ sel)).

Definition number_boolValue (n : number) : bool :=
  match n with
  | numberWithBool b => b
  | numberWithLongLong z => bool_of_longlong z
  | numberWithDouble d => bool_of_double d
  | numberWithFloat f => bool_of_float f
  end.

Definition number_longLongValue (n : number) : Z :=
  match n with
  | numberWithBool b => if b then 1%Z else 0%Z
  | numberWithLongLong z => z
  | numberWithDouble d => longlong_of_double d
  | numberWithFloat f => longlong_of_float f
  end.

Definition number_doubleValue (n : number) : double :=
  match n with
  | numberWithBool b => double_of_longlong (if b then 1 else 0)
  | numberWithLongLong z => double_of_longlong z
  | numberWithDouble d => d
  | numberWithFloat f => double_of_float f
  end.

Definition number_floatValue (n : number) : float :=
  match n with
  | numberWithBool b => float_of_longlong (if b then 1 else 0)
  | numberWithLongLong z => float_of_longlong z
  | numberWithDouble d => float_of_double d
  | numberWithFloat f => f
  end.

(** A message to [nil] returns zero. *)
Definition boolValue (v : id) : result bool :=
  match v with
  | nil => Return false
  | NSNumber n => Return (number_boolValue n)
  | NSString s => Return (NSString_boolValue s)
  | _ => unrecognized_selector "boolValue"
  end.

Definition longLongValue (v : id) : result Z :=
  match v with
  | nil => Return 0%Z
  | NSNumber n => Return (number_longLongValue n)
  | NSString s => Return (NSString_longLongValue s)
  | _ => unrecognized_selector "longLongValue"
  end.

Definition doubleValue (v : id) : result double :=
  match v with
  | nil => Return (double_of_longlong 0)
  | NSNumber n => Return (number_doubleValue n)
  | NSString s => Return (NSString_doubleValue s)
  | _ => unrecognized_selector "doubleValue"
  end.

Definition floatValue (v : id) : result float :=
  match v with
  | nil => Return (float_of_longlong 0)
  | NSNumber n => Return (number_floatValue n)
  | NSString s => Return (NSString_floatValue s)
  | _ => unrecognized_selector "floatValue"
  end.

(** The classes of the values above; each derives from NSObject directly. *)
Inductive Class :=
| NSObject_class
| NSNull_class
| NSNumber_class
| NSString_class
| NSData_class
| NSDate_class
| NSArray_class
| NSDictionary_class
| RLMObjectBase_class
| RLMCollection_class.

#[export] Instance Class_eq_dec : EqDecision Class.
Proof. solve_decision. Defined.

Definition class_of (v : id) : option Class :=
  match v with
  | nil => None
  | NSNull => Some NSNull_class
  | NSNumber _ => Some NSNumber_class
  | NSString _ => Some NSString_class
  | NSData _ => Some NSData_class
  | NSDate _ => Some NSDate_class
  | NSArray _ => Some NSArray_class
  | NSDictionary _ => Some NSDictionary_class
  | RLMObjectBase _ => Some RLMObjectBase_class
  | RLMCollection _ => Some RLMCollection_class
  end.

Definition isKindOfClass (v : id) (c : Class) : bool :=
  match class_of v with
  | None => false
  | Some k => bool_decide (k = c) || bool_decide (c = NSObject_class)
  end.

(** What a [const char *] points at as a C string: the bytes up to the
    first zero byte. *)
Fixpoint c_string (bytes : string) : string :=
  match bytes with
  | EmptyString => EmptyString
  | String c rest => if Ascii.eqb c Ascii.zero then EmptyString else String c (c_string rest)
  end.

(** [@(p)] for a [const char *] is [+stringWithUTF8String:]: it throws for
    the null pointer and returns [nil] for bytes that are not valid UTF-8. *)
Definition stringWithUTF8String (p : option string) : result id :=
  match p with
  | None => Throw (NSInvalidArgumentException "NULL cString")
  | Some bytes =>
      match NSString_fromUTF8 (c_string bytes) with
      | Some text => Return (NSString text)
      | None => Return nil
      end
  end.

(** ** Helpers of RLMUtil.hpp

    The header calls them and does not define them. *)
Class RLMUtil := {
  RLMTimestampForNSDate : id -> result Timestamp;
  RLMTimestampToNSDate : Timestamp -> id;
  RLMBinaryDataForNSData : id -> result BinaryData;
  RLMBinaryDataToNSData : BinaryData -> id;
  RLMStringDataWithNSString : id -> result StringData
}.

Context `{RLMUtil}.

(** ** Scalar coercion (RLMAccessor.hpp, lines 72-87) *)

Definition to_timestamp (v : id) : result Timestamp := RLMTimestampForNSDate v.
Definition to_bool (v : id) : result bool := boolValue v.
Definition to_double (v : id) : result double := doubleValue v.
Definition to_float (v : id) : result float := floatValue v.
Definition to_long (v : id) : result Z := longLongValue v.
Definition to_binary (v : id) : result BinaryData := RLMBinaryDataForNSData v.
Definition to_string (v : id) : result StringData := RLMStringDataWithNSString v.
Definition to_mixed (_ : id) : result Mixed :=
  Throw (std_logic_error "'Any' type is unsupported").

Definition from_binary (v : BinaryData) : id := RLMBinaryDataToNSData v.
Definition from_bool (v : bool) : id := NSNumber (numberWithBool v).
Definition from_double (v : double) : id := NSNumber (numberWithDouble v).
Definition from_float (v : float) : id := NSNumber (numberWithFloat v).
Definition from_long (v : Z) : id := NSNumber (numberWithLongLong v).
Definition from_string (v : StringData) : result id := stringWithUTF8String (data v).
Definition from_timestamp (v : Timestamp) : id := RLMTimestampToNSDate v.

(** ** Null, missing values, dereference (lines 93-95, 103) *)

Definition null_value : id := NSNull.

Definition is_null (v : id) : bool :=
  match v with
  | NSNull => true
  | _ => false
  end.

Definition allow_missing (v : id) : bool := isKindOfClass v NSArray_class.

Definition deref (v : id) : id := v.

(** ** The realm: schema, tables, observation log *)

(** Modelled from the spec: the schema component and the storage engine are
    collaborators the header only names. A property descriptor gives the
    name, the storage type (a scalar kind, a list of scalars, a link to an
    object, a list of links), whether the property is the primary key and
    whether the schema requires it; a table is the list of its rows, a row
    the list of its cells in the declared order of the properties. *)
Inductive ScalarKind := KBool | KInt | KFloat | KDouble | KString | KData | KDate.

Inductive PropertyType :=
| Scalar (k : ScalarKind)
| ScalarList (k : ScalarKind)
| Link (target : string)
| LinkList (target : string).

Record Property := mkProperty {
  name : string;
  type : PropertyType;
  is_primary : bool;
  is_required : bool
}.

Record ObjectSchema := mkObjectSchema {
  schema_name : string;
  persisted_properties : list Property
}.

Inductive Notification :=
| WillChange (object_type : string) (row : nat) (property : string)
| DidChange.

Record Realm := mkRealm {
  schema : list ObjectSchema;
  tables : gmap string Table;
  observed : list Notification
}.

Definition with_tables (s : Realm) (t : gmap string Table) : Realm :=
  {| schema := schema s; tables := t; observed := observed s |}.

Definition with_observed (s : Realm) (o : list Notification) : Realm :=
  {| schema := schema s; tables := tables s; observed := o |}.

(** A call against the realm: it returns or throws, and leaves a realm
    behind either way (what was written before a throw stays written). *)
Definition M (A : Type) : Type := Realm -> result A * Realm.

Definition ret {A} (a : A) : M A := fun s => (Return a, s).
Definition throw {A} (e : exception) : M A := fun s => (Throw e, s).
Definition bind {A B} (c : M A) (k : A -> M B) : M B :=
  fun s => match c s with
           | (Return a, s') => k a s'
           | (Throw e, s') => (Throw e, s')
           end.
Definition lift {A} (r : result A) : M A := fun s => (r, s).
Definition gets {A} (f : Realm -> A) : M A := fun s => (Return (f s), s).
Definition modify (f : Realm -> Realm) : M unit := fun s => (Return tt, f s).

Notation "x <- c ;; k" := (bind c (fun x => k))
  (at level 100, c at next level, right associativity).
Notation "c ;;; k" := (bind c (fun _ => k))
  (at level 100, right associativity).

Fixpoint for_each {A} (l : list A) (body : A -> M unit) : M unit :=
  match l with
  | [] => ret tt
  | x :: rest => body x ;;; for_each rest body
  end.

Definition find_schema_in (sch : list ObjectSchema) (ty : string) : option ObjectSchema :=
  List.find (fun os => String.eqb (schema_name os) ty) sch.

Definition find_schema (s : Realm) (ty : string) : option ObjectSchema :=
  find_schema_in (schema s) ty.

Definition get_table (s : Realm) (ty : string) : Table := default [] (tables s !! ty).

Definition get_row (s : Realm) (ty : string) (row : nat) : option Row :=
  get_table s ty !! row.

Definition get_cell (s : Realm) (ty : string) (row col : nat) : option Value :=
  match get_row s ty row with
  | Some r => r !! col
  | None => None
  end.

Definition set_cell (ty : string) (row col : nat) (x : Value) : M unit :=
  modify (fun s => with_tables s (<[ty := alter (<[col := x]>) row (get_table s ty)]> (tables s))).

Definition push_cell (ty : string) (row col : nat) (x : Value) : M unit :=
  modify (fun s =>
    let push c := match c with VList items => VList (items ++ [x]) | _ => c end in
    with_tables s (<[ty := alter (alter push col) row (get_table s ty)]> (tables s))).

Definition insert_row (ty : string) (r : Row) : M nat :=
  fun s => (Return (length (get_table s ty)),
            with_tables s (<[ty := get_table s ty ++ [r]]> (tables s))).

(** ** Container wrapping (lines 46-49, 88-91) *)

(** Modelled from the spec: the four [wrap] overloads are declared in the
    header and defined elsewhere. Wrapping returns a lightweight proxy that
    holds the handle; nothing is read from or written to the engine until
    the proxy is enumerated. *)
Class Wrap (handle : Type) := wrap : handle -> M id.

#[export] Instance wrap_TableRef : Wrap TableRef :=
  fun t => ret (RLMCollection (OfTable t)).
#[export] Instance wrap_List : Wrap List :=
  fun l => ret (RLMCollection (OfList l)).
#[export] Instance wrap_Results : Wrap Results :=
  fun r => ret (RLMCollection (OfResults r)).
#[export] Instance wrap_Object : Wrap Object :=
  fun o => ret (RLMObjectBase o).

(** Lines 88-91, for whatever the overloads of [wrap] do. *)
Definition from_list `{!Wrap List} (v : List) : M id := wrap v.
Definition from_table `{!Wrap TableRef} (v : TableRef) : M id := wrap v.
Definition from_results `{!Wrap Results} (v : Results) : M id := wrap v.
Definition from_object `{!Wrap Object} (v : Object) : M id := wrap v.

(** Modelled from the spec: what enumerating a proxy reads from the engine,
    queried at the time of the enumeration. *)
Definition link_targets (x : Value) : list nat :=
  match x with
  | VList items => omap (fun i => match i with VLink j => Some j | _ => None end) items
  | _ => []
  end.

Definition list_target (s : Realm) (l : List) : string :=
  match find_schema s (list_table l) with
  | Some os =>
      match persisted_properties os !! list_column l with
      | Some p => match type p with LinkList u => u | _ => EmptyString end
      | None => EmptyString
      end
  | None => EmptyString
  end.

Definition matching_rows (q : Row -> bool) (t : Table) : list nat :=
  omap (fun '(i, r) => if q r then Some i else None) (imap pair t).

Definition collection_contents (s : Realm) (c : Collection) : list id :=
  match c with
  | OfTable t =>
      map (fun i => RLMObjectBase (mkObject (table_name t) i))
          (seq 0 (length (get_table s (table_name t))))
  | OfList l =>
      map (fun i => RLMObjectBase (mkObject (list_target s l) i))
          (link_targets (default VNull (get_cell s (list_table l) (list_row l) (list_column l))))
  | OfResults r =>
      map (fun i => RLMObjectBase (mkObject (results_table r) i))
          (matching_rows (results_query r) (get_table s (results_table r)))
  end.

(** ** Enumeration (lines 65-70) *)

(** [for (id value in v)]: the elements fast enumeration yields, in order. *)
Definition fast_enumeration (s : Realm) (v : id) : result (list id) :=
  match v with
  | nil => Return []
  | NSArray l => Return l
  | NSDictionary kvs => Return (map (fun kv => NSString (fst kv)) kvs)
  | RLMCollection c => Return (collection_contents s c)
  | _ => unrecognized_selector "countByEnumeratingWithState:objects:count:"
  end.

Definition list_enumerate (v : id) (func : id -> M unit) : M unit :=
  elements <- (fun s => (fast_enumeration s v, s)) ;;
  for_each elements func.

(** ** The accessor context (lines 38-43, 105-113) *)

(** The fields the operations below read. [_info] names the object type a
    table-bound context is constructed against; [_observationInfo] is the
    observed object, resolved once at construction, if any. *)
Record RLMAccessorContext := mkContext {
  _info : string;
  _is_create : bool;
  _parentObject : option Object;
  _defaultValues : list (string * id);
  _observationInfo : option Object
}.

(** ** Mutation notification hooks (lines 55-56, 100) *)

(** Modelled from the spec: [will_change(Row, Property)] and [did_change()] are
    declared in the header and defined elsewhere. They record the call for
    the observation component and do nothing without observation info. A
    row is given by its table and index. *)
Definition will_change_row (ctx : RLMAccessorContext) (table : string) (row : nat)
    (prop : Property) : M unit :=
  match _observationInfo ctx with
  | None => ret tt
  | Some _ =>
      modify (fun s => with_observed s (observed s ++ [WillChange table row (name prop)]))
  end.

(** Line 100: the overload for an object forwards the row of the object. *)
Definition will_change (ctx : RLMAccessorContext) (obj : Object) (prop : Property) : M unit :=
  will_change_row ctx (object_type obj) (row_index obj) prop.

(** Modelled from the spec: [did_change()], as [will_change_row]. *)
Definition did_change (ctx : RLMAccessorContext) : M unit :=
  match _observationInfo ctx with
  | None => ret tt
  | Some _ => modify (fun s => with_observed s (observed s ++ [DidChange]))
  end.

(** ** Object identity resolution (lines 58-60, 97-98) *)

Fixpoint assoc (key : string) (kvs : list (string * id)) : id :=
  match kvs with
  | [] => nil
  | (k, v) :: rest => if String.eqb k key then v else assoc key rest
  end.

(** Modelled from the spec: [value_for_property] is declared in the header and
    defined elsewhere. A mapping binds by name, an array by position; the
    result holds [nil] when the value is absent. *)
Definition value_for_property (dict : id) (prop : string) (prop_index : nat) : OptionalId :=
  match dict with
  | NSDictionary kvs => mkOptionalId (assoc prop kvs)
  | NSArray l => mkOptionalId (default nil (l !! prop_index))
  | _ => mkOptionalId nil
  end.

(** Modelled from the spec: [default_value_for_property] is declared in the
    header and defined elsewhere. It consults the default-value set of the
    context. *)
Definition default_value_for_property (ctx : RLMAccessorContext) (os : ObjectSchema)
    (prop : string) : OptionalId :=
  mkOptionalId (assoc prop (_defaultValues ctx)).

Definition is_absent (v : OptionalId) : bool :=
  match value v with
  | nil => true
  | _ => false
  end.

(** The typed coercion a scalar property asks for. *)
Definition to_scalar (k : ScalarKind) (v : id) : result Value :=
  match k with
  | KBool => result_map VBool (to_bool v)
  | KInt => result_map VInt (to_long v)
  | KFloat => result_map VFloat (to_float v)
  | KDouble => result_map VDouble (to_double v)
  | KString => result_map VString (to_string v)
  | KData => result_map VBinary (to_binary v)
  | KDate => result_map VTimestamp (to_timestamp v)
  end.

Definition empty_value (t : PropertyType) : Value :=
  match t with
  | ScalarList _ | LinkList _ => VList []
  | _ => VNull
  end.

Definition empty_row (os : ObjectSchema) : Row :=
  map (fun p => empty_value (type p)) (persisted_properties os).

Definition primary_key (os : ObjectSchema) : option (nat * Property) :=
  List.find (fun ip => is_primary (snd ip)) (imap pair (persisted_properties os)).

(** Primary keys are integers or strings. *)
Definition key_matches (key stored : Value) : bool :=
  match key, stored with
  | VInt a, VInt b => (a =? b)%Z
  | VString a, VString b => bool_decide (a = b)
  | VNull, VNull => true
  | _, _ => false
  end.

(** Modelled from the spec: the primary-key lookup of the engine, the first
    row whose key cell matches. *)
Definition find_primary_key (t : Table) (col : nat) (key : Value) : option nat :=
  fst <$> List.find (fun ir => match snd ir !! col with
                               | Some stored => key_matches key stored
                               | None => false
                               end) (imap pair t).

Definition invalid_reference {A} (detail : string) : M A :=
  throw (accessor_error InvalidReference detail).

(** Modelled from the spec: raw property data is a mapping, or an array with
    one value per property of the schema (else InvalidReference). *)
Definition check_raw (os : ObjectSchema) (v : id) : M unit :=
  match v with
  | NSDictionary _ => ret tt
  | NSArray l =>
      if (length l =? length (persisted_properties os))%nat then ret tt
      else invalid_reference "wrong arity"
  | _ => invalid_reference "not property data"
  end.

Section Resolution.
Variable ctx : RLMAccessorContext.
(** The resolution of a nested value. *)
Variable resolve_nested : id -> string -> bool -> M nat.

(** Modelled from the spec: the visitors that write one element of a dynamic
    array into a list of the engine. *)
Definition write_scalar_list (k : ScalarKind) (obj : Object) (col : nat) (e : id) : M unit :=
  if is_null e then push_cell (object_type obj) (row_index obj) col VNull
  else
    x <- lift (to_scalar k e) ;;
    push_cell (object_type obj) (row_index obj) col x.

Definition write_link_list (u : string) (update : bool) (obj : Object) (col : nat) (e : id)
    : M unit :=
  if is_null e then invalid_reference "null in a list of links"
  else
    j <- resolve_nested e u update ;;
    push_cell (object_type obj) (row_index obj) col (VLink j).

(** Modelled from the spec: one property write, wrapped in the hooks. Null
    is tested before any typed coercion; the target of a link is resolved,
    by this same resolution, before the link is written; a list property
    takes an array only ([allow_missing]) and is filled by [list_enumerate]. *)
Definition set_property_value (obj : Object) (col : nat) (prop : Property) (v : id)
    (update : bool) : M unit :=
  let store x :=
    will_change ctx obj prop ;;;
    set_cell (object_type obj) (row_index obj) col x ;;;
    did_change ctx in
  if is_null v then store (empty_value (type prop))
  else
    match type prop with
    | Scalar k => x <- lift (to_scalar k v) ;; store x
    | Link u => j <- resolve_nested v u update ;; store (VLink j)
    | ScalarList k =>
        if allow_missing v then
          will_change ctx obj prop ;;;
          set_cell (object_type obj) (row_index obj) col (VList []) ;;;
          list_enumerate v (write_scalar_list k obj col) ;;;
          did_change ctx
        else invalid_reference "not an array"
    | LinkList u =>
        if allow_missing v then
          will_change ctx obj prop ;;;
          set_cell (object_type obj) (row_index obj) col (VList []) ;;;
          list_enumerate v (write_link_list u update obj col) ;;;
          did_change ctx
        else invalid_reference "not an array"
    end.

(** Modelled from the spec: what is done for one property of the row being
    created or updated. The primary key is not written again. An omitted
    property is left alone on an existing row; on a new row it takes its
    default, and fails with MissingRequiredProperty when it has none and
    the schema requires it. *)
Definition populate_property (os : ObjectSchema) (obj : Object) (v : id) (update created : bool)
    (ip : nat * Property) : M unit :=
  let '(col, prop) := ip in
  if is_primary prop then ret tt
  else
    let supplied := value_for_property v (name prop) col in
    if is_absent supplied then
      if created then
        let dflt := default_value_for_property ctx os (name prop) in
        if is_absent dflt then
          if is_required prop then
            throw (accessor_error MissingRequiredProperty (name prop))
          else ret tt
        else set_property_value obj col prop (value dflt) update
      else ret tt
    else set_property_value obj col prop (value supplied) update.

Definition populate (os : ObjectSchema) (obj : Object) (v : id) (update created : bool) : M unit :=
  for_each (imap pair (persisted_properties os)) (populate_property os obj v update created).

(** Modelled from the spec: the primary-key field extracted from the value. *)
Definition primary_key_value (prop : Property) (v : id) : result Value :=
  match v with
  | nil => Throw (accessor_error InvalidReference "no primary key")
  | _ =>
      if is_null v then Return VNull
      else
        match type prop with
        | Scalar k => to_scalar k v
        | _ => Throw (accessor_error InvalidReference "primary key is not a scalar")
        end
  end.

(** Modelled from the spec: step 2 of the resolution. With a primary key and
    [update], the row whose key matches is updated in place; in every other
    case a row is inserted. *)
Definition create_or_update (v : id) (ty : string) (update : bool) : M nat :=
  found <- gets (fun s => find_schema s ty) ;;
  match found with
  | None => invalid_reference "unknown object type"
  | Some os =>
      check_raw os v ;;;
      match primary_key os with
      | Some (col, prop) =>
          key <- lift (primary_key_value prop (value (value_for_property v (name prop) col))) ;;
          existing <- gets (fun s =>
            if update then find_primary_key (get_table s ty) col key else None) ;;
          match existing with
          | Some i => populate os (mkObject ty i) v update false ;;; ret i
          | None =>
              i <- insert_row ty (<[col := key]> (empty_row os)) ;;
              populate os (mkObject ty i) v update true ;;; ret i
          end
      | None =>
          i <- insert_row ty (empty_row os) ;;
          populate os (mkObject ty i) v update true ;;; ret i
      end
  end.

End Resolution.

(** Modelled from the spec: step 1 of the resolution. A persisted-object
    handle resolves to its row when it is of the expected type, and fails
    with TypeMismatch otherwise. *)
Definition existing_object_index (o : Object) (ty : string) : M nat :=
  if String.eqb (object_type o) ty then ret (row_index o)
  else throw (accessor_error TypeMismatch (object_type o)).

(** Modelled from the spec: the resolution, step 1 or else step 2, with
    nested values resolved by the resolution itself (step 3). *)
Fixpoint resolve (fuel : nat) (ctx : RLMAccessorContext) (v : id) (ty : string)
    (update : bool) : M nat :=
  match v with
  | RLMObjectBase o => existing_object_index o ty
  | _ =>
      match fuel with
      | O => throw out_of_fuel
      | S fuel' => create_or_update ctx (resolve fuel' ctx) v ty update
      end
  end.

(** Modelled from the spec: [to_object_index] is declared in the header and
    defined elsewhere. The realm the call works on is the state of [M];
    [fuel] bounds how deep nested property data is followed. *)
Definition to_object_index (fuel : nat) (ctx : RLMAccessorContext) (v : id) (ty : string)
    (update : bool) : M nat :=
  resolve fuel ctx v ty update.

(** Modelled from the spec: [to_existing_object_index] is declared in the
    header and defined elsewhere. It takes no object type: the type expected
    is the one the context is bound to, and nothing is created. *)
Definition to_existing_object_index (ctx : RLMAccessorContext) (v : id) : M nat :=
  match v with
  | RLMObjectBase o => existing_object_index o (_info ctx)
  | _ => invalid_reference "not a persisted object"
  end.

(** *** Which rows a resolution can update in place *)

(** Raw property data for an object of the schema, as [check_raw] tells. *)
Definition is_raw (os : ObjectSchema) (v : id) : bool :=
  match v with
  | NSDictionary _ => true
  | NSArray l => (length l =? length (persisted_properties os))%nat
  | _ => false
  end.

Section Upserted.
Variable sch : list ObjectSchema.
Variable ctx : RLMAccessorContext.

(** The value a property is written from, if any: the value supplied, or,
    on a row that is being created, the default of a property that the
    value omits. The primary key is not written. *)
Definition written_from (created : bool) (os : ObjectSchema) (v : id) (ip : nat * Property)
    : list id :=
  if is_primary (snd ip) then []
  else
    let supplied := value_for_property v (name (snd ip)) (fst ip) in
    if is_absent supplied then
      if created then
        let dflt := default_value_for_property ctx os (name (snd ip)) in
        if is_absent dflt then [] else [value dflt]
      else []
    else [value supplied].

(** What [rec] collects over the nested values of [v]: the values its links
    are written from and the elements of the arrays its lists of links are
    written from, null apart. *)
Definition nested_in {X} (created : bool) (os : ObjectSchema) (rec : string -> id -> list X)
    (v : id) : list X :=
  ip ← imap pair (persisted_properties os);
  w ← written_from created os v ip;
  if is_null w then []
  else
    match type (snd ip) with
    | Link u => rec u w
    | LinkList u => match w with
                    | NSArray l => e ← l; if is_null e then [] else rec u e
                    | _ => []
                    end
    | _ => []
    end.

(** The object type and primary key by which property data names a row. *)
Definition own_key (os : ObjectSchema) (ty : string) (v : id) : list (string * Value) :=
  match primary_key os with
  | Some (col, prop) =>
      match primary_key_value prop (value (value_for_property v (name prop) col)) with
      | Return key => [(ty, key)]
      | Throw _ => []
      end
  | None => []
  end.

(** The rows, by object type and primary key, that resolving [v] against
    [ty] can update in place with the given fuel: the one [v] names and
    those its nested property data names. Whether the row of a nested value
    is created or found is only known when the resolution runs, so the
    defaults of the properties a nested value omits count as its data. *)
Fixpoint upserted (fuel : nat) (ty : string) (v : id) : list (string * Value) :=
  match v with
  | RLMObjectBase _ => []
  | _ =>
      match fuel with
      | O => []
      | S fuel' =>
          match find_schema_in sch ty with
          | Some os =>
              if is_raw os v then own_key os ty v ++ nested_in true os (upserted fuel') v
              else []
          | None => []
          end
      end
  end.

(** The rows the nested property data of [v] names, when [v] itself updates
    a row that exists: defaults are not consulted for [v]. *)
Definition nested_upserted (fuel : nat) (ty : string) (v : id) : list (string * Value) :=
  match fuel, find_schema_in sch ty with
  | S fuel', Some os => if is_raw os v then nested_in false os (upserted fuel') v else []
  | _, _ => []
  end.

(** *** Which values a resolution accepts *)

Definition returns {A} (r : result A) : bool :=
  match r with
  | Return _ => true
  | Throw _ => false
  end.

(** A property can be written from [w] without an error, [ok] telling which
    nested values resolve. *)
Definition writable (ok : string -> id -> bool) (prop : Property) (w : id) : bool :=
  if is_null w then true
  else
    match type prop with
    | Scalar k => returns (to_scalar k w)
    | ScalarList k =>
        match w with
        | NSArray l => forallb (fun e => is_null e || returns (to_scalar k e)) l
        | _ => false
        end
    | Link u => ok u w
    | LinkList u =>
        match w with
        | NSArray l => forallb (fun e => negb (is_null e) && ok u e) l
        | _ => false
        end
    end.

(** One property of a row is dealt with without an error. *)
Definition acceptable (ok : string -> id -> bool) (created : bool) (os : ObjectSchema) (v : id)
    (ip : nat * Property) : bool :=
  let '(col, prop) := ip in
  if is_primary prop then true
  else
    let supplied := value_for_property v (name prop) col in
    if is_absent supplied then
      if created then
        let dflt := default_value_for_property ctx os (name prop) in
        if is_absent dflt then negb (is_required prop)
        else writable ok prop (value dflt)
      else true
    else writable ok prop (value supplied).

Definition key_ok (os : ObjectSchema) (v : id) : bool :=
  match primary_key os with
  | Some (col, prop) =>
      returns (primary_key_value prop (value (value_for_property v (name prop) col)))
  | None => true
  end.

(** Values whose resolution against [ty] returns with the given fuel,
    whether their rows are found or created. *)
Fixpoint accepted (fuel : nat) (ty : string) (v : id) : bool :=
  match v with
  | RLMObjectBase o => String.eqb (object_type o) ty
  | _ =>
      match fuel with
      | O => false
      | S fuel' =>
          match find_schema_in sch ty with
          | Some os =>
              is_raw os v && key_ok os v
              && forallb (acceptable (accepted fuel') true os v)
                         (imap pair (persisted_properties os))
          | None => false
          end
      end
  end.

(** Values that update a row that exists without an error. *)
Definition updatable (fuel : nat) (ty : string) (v : id) : bool :=
  match fuel, find_schema_in sch ty with
  | S fuel', Some os =>
      is_raw os v
      && forallb (acceptable (accepted fuel') false os v) (imap pair (persisted_properties os))
  | _, _ => false
  end.

End Upserted.

(** *** What a written property holds *)

(** [s] holds what [s0] held and more: the schema is the same, no table
    lost a row, and the primary keys of the rows of [s0] are as they were. *)
Definition grows (s0 s : Realm) : Prop :=
  schema s = schema s0
  /\ (forall ty, length (get_table s0 ty) <= length (get_table s ty))
  /\ (forall ty os col prop i x,
        find_schema s0 ty = Some os ->
        persisted_properties os !! col = Some prop ->
        is_primary prop = true ->
        get_cell s0 ty i col = Some x -> get_cell s ty i col = Some x).

(** Row [j] of the table of [u] in [s] is the row the relationship value [e]
    names: the row of the handle; or the row that carries the primary key
    of the property data; or, for a type without a primary key, a row that
    was not there in [s0]. *)
Definition names_row (s0 s : Realm) (u : string) (e : id) (j : nat) : Prop :=
  match e with
  | RLMObjectBase o => object_type o = u /\ j = row_index o
  | _ =>
      exists os, find_schema s u = Some os
        /\ match primary_key os with
           | Some (kcol, kprop) =>
               exists key,
                 primary_key_value kprop (value (value_for_property e (name kprop) kcol))
                 = Return key
                 /\ get_cell s u j kcol = Some key
           | None => length (get_table s0 u) <= j < length (get_table s u)
           end
  end.

(** What a property holds in [s] after it was written from [v] by a call
    that started in [s0]: the coerced scalar, a link to the row the nested
    value names, or one entry for each element of the array, in its order. *)
Definition stored_as (s0 s : Realm) (prop : Property) (v : id) (x : Value) : Prop :=
  if is_null v then x = empty_value (type prop)
  else
    match type prop with
    | Scalar k => to_scalar k v = Return x
    | Link u => exists j, x = VLink j /\ names_row s0 s u v j
    | ScalarList k =>
        exists l xs, v = NSArray l /\ x = VList xs
          /\ Forall2 (fun e y => if is_null e then y = VNull else to_scalar k e = Return y) l xs
    | LinkList u =>
        exists l js, v = NSArray l /\ x = VList (VLink <$> js)
          /\ Forall2 (names_row s0 s u) l js
    end.

Definition supplied (v : id) (col : nat) (prop : Property) : bool :=
  negb (is_primary prop) && negb (is_absent (value_for_property v (name prop) col)).

(** ** Vocabulary of the properties *)

(** Wrapping the same handle twice. *)
Definition wrap_twice {handle : Type} `{Wrap handle} (h : handle) : M (id * id) :=
  c1 <- wrap h ;; c2 <- wrap h ;; ret (c1, c2).

(** A container shows a table: it enumerates one object for each row the
    table holds in [s], in the order of the rows. *)
Definition shows_table (s : Realm) (t : TableRef) (c : id) : Prop :=
  exists l, fast_enumeration s c = Return l
    /\ length l = length (get_table s (table_name t))
    /\ forall k, k < length l -> l !! k = Some (RLMObjectBase (mkObject (table_name t) k)).

(** A container shows a list of links: it enumerates one object for each
    link the cell holds in [s], in the order of the links. *)
Definition shows_list (s : Realm) (h : List) (c : id) : Prop :=
  exists l, fast_enumeration s c = Return l
    /\ l = (fun j => RLMObjectBase (mkObject (list_target s h) j))
           <$> link_targets (default VNull (get_cell s (list_table h) (list_row h)
                                                     (list_column h))).

(** A container shows a result set: it enumerates, once each, the rows
    that satisfy the query in [s]. *)
Definition shows_results (s : Realm) (r : Results) (c : id) : Prop :=
  exists l, fast_enumeration s c = Return l
    /\ NoDup l
    /\ forall x, x ∈ l <->
         exists i row, x = RLMObjectBase (mkObject (results_table r) i)
                       /\ get_table s (results_table r) !! i = Some row
                       /\ results_query r row = true.

(** A container shows an object: it resolves to the row of the handle. *)
Definition shows_object (s : Realm) (o : Object) (c : id) : Prop :=
  forall (fuel : nat) (ctx : RLMAccessorContext) (update : bool),
    to_object_index fuel ctx c (object_type o) update s = (Return (row_index o), s).

(** Both containers are returned and the realm is as before; and whatever
    the realm holds later, each of the two shows what the realm then holds
    for the handle (no row was copied when wrapping), so the two enumerate
    the same. *)
Definition wraps_once {handle : Type} `{Wrap handle}
    (shows : Realm -> handle -> id -> Prop) (h : handle) : Prop :=
  forall s : Realm, exists c1 c2,
    wrap_twice h s = (Return (c1, c2), s)
    /\ forall s' : Realm,
         shows s' h c1 /\ shows s' h c2
         /\ fast_enumeration s' c1 = fast_enumeration s' c2.

(** The visit of the element at one index. *)
Definition visit_at (l : list id) (func : id -> M unit) (i : nat) : M unit :=
  match l !! i with
  | Some x => func x
  | None => ret tt
  end.

(** One pass over the indices 0, 1, ..., in this order, each once. *)
Definition forward_pass (l : list id) (func : id -> M unit) : M unit :=
  for_each (seq 0 (length l)) (visit_at l func).

(** [inv I c]: the call [c] keeps [I], whether it returns or throws. *)
Definition inv {A} (I : Realm -> Prop) (c : M A) : Prop :=
  forall s, I s -> I (c s).2.

(** An invariant that reads the schema and the tables only. *)
Definition blind (I : Realm -> Prop) : Prop :=
  forall s s', schema s' = schema s -> tables s' = tables s -> I s -> I s'.

(** An invariant that only reads the schema and the table of one type. *)
Definition local (T : string) (I : Realm -> Prop) : Prop :=
  forall s s', schema s' = schema s -> tables s' !! T = tables s !! T -> I s -> I s'.

(** What is asked of the nested resolutions a write from [v] can start. *)
Definition nested_inv (I : Realm -> Prop) (rec : id -> string -> bool -> M nat)
    (update : bool) (prop : Property) (v : id) : Prop :=
  is_null v = false ->
  (forall u, type prop = Link u -> inv I (rec v u update))
  /\ (forall u l e, type prop = LinkList u -> v = NSArray l -> e ∈ l -> is_null e = false ->
        inv I (rec e u update)).

(** An invariant that only reads the schema and one row. *)
Definition row_local (T : string) (i : nat) (I : Realm -> Prop) : Prop :=
  forall s s', schema s' = schema s -> get_row s' T i = get_row s T i -> I s -> I s'.

(** The schema is [sch] and row [i] of [T] is [r0]. *)
Definition row_kept (sch : list ObjectSchema) (T : string) (i : nat) (r0 : Row)
    (s : Realm) : Prop :=
  schema s = sch /\ get_row s T i = Some r0.

(** The schema is [sch] and the key cell of row [i] of [T] holds [stored]. *)
Definition key_kept (sch : list ObjectSchema) (T : string) (i kcol : nat) (stored : Value)
    (s : Realm) : Prop :=
  schema s = sch /\ get_cell s T i kcol = Some stored.

(** [c] returns from every realm whose schema is [sch], and leaves the
    schema as it is. *)
Definition succeeds {A} (sch : list ObjectSchema) (c : M A) : Prop :=
  forall s, schema s = sch -> exists a s', c s = (Return a, s') /\ schema s' = sch.

(** [c2] does what [c1] does whenever [c1] is not cut off. *)
Definition refines {A} (c1 c2 : M A) : Prop :=
  forall s, (c1 s).1 <> Throw out_of_fuel -> c2 s = c1 s.

(** The columns the value supplies: those the update writes. *)
Definition supplied_columns (os : ObjectSchema) (v : id) : list nat :=
  (filter (fun ip => supplied v ip.1 ip.2 = true) (imap pair (persisted_properties os))).*1.

(** Row [i] of [T] is as in [s0] but for its cells in the columns [W]. *)
Definition cells_kept (T : string) (i : nat) (W : list nat) (s0 s : Realm) : Prop :=
  (forall c, c ∉ W -> get_cell s T i c = get_cell s0 T i c)
  /\ length <$> get_row s T i = length <$> get_row s0 T i.

(** The key cell of the row stays, together with [J]. *)
Definition with_key (sch : list ObjectSchema) (T : string) (i kcol : nat) (stored : Value)
    (J : Realm -> Prop) (s : Realm) : Prop :=
  key_kept sch T i kcol stored s /\ J s.

(** The cell of row [i] of [T] in column [col] holds [x]. *)
Definition holds (T : string) (i col : nat) (x : Value) (s : Realm) : Prop :=
  get_cell s T i col = Some x.

(** The claim as the specification states it, with no condition on the
    nested values: the properties a value omits keep what they hold. *)
Definition upsert_keeps_omitted : Prop :=
  forall (fuel : nat) (ctx : RLMAccessorContext) (s : Realm) (v : id) (T : string)
         (os : ObjectSchema) (kcol : nat) (kprop : Property) (key : Value) (i : nat),
    find_schema s T = Some os ->
    primary_key os = Some (kcol, kprop) ->
    primary_key_value kprop (value (value_for_property v (name kprop) kcol)) = Return key ->
    find_primary_key (get_table s T) kcol key = Some i ->
    forall (col : nat) (prop : Property),
      persisted_properties os !! col = Some prop ->
      supplied v col prop = false ->
      get_cell (to_object_index fuel ctx v T true s).2 T i col = get_cell s T i col.

(** The values that answer [boolValue], [longLongValue], [doubleValue] and
    [floatValue]: numbers, strings, and [nil], which answers every message
    with zero. *)
Definition numeric_receiver (v : id) : bool :=
  match v with
  | nil | NSNumber _ | NSString _ => true
  | _ => false
  end.

(** The values a [for ... in] loop can run over. *)
Definition enumerable (v : id) : bool :=
  match v with
  | nil | NSArray _ | NSDictionary _ | RLMCollection _ => true
  | _ => false
  end.

(** The bytes hold no zero byte. *)
Definition no_nul (bytes : string) : Prop :=
  Forall (fun c => c <> Ascii.zero) (list_ascii_of_string bytes).

End WithCScalars.

Abbreviation Row := (list Value).
Abbreviation Table := (list (list Value)).
Notation "x <- c ;; k" := (bind c (fun x => k))
  (at level 100, c at next level, right associativity).
Notation "c ;;; k" := (bind c (fun _ => k))
  (at level 100, right associativity).

(** ** A small platform and realm for the examples *)

(** UTF-8 as the Unicode standard defines it (well-formed byte sequences),
    read off the bits of the bytes, the lowest bit first. *)
Definition is_continuation (c : ascii) : bool :=
  match c with
  | Ascii _ _ _ _ _ _ b6 b7 => b7 && negb b6
  end.

Fixpoint well_formed_utf8 (bytes : string) : bool :=
  match bytes with
  | EmptyString => true
  | String (Ascii b0 b1 b2 b3 b4 b5 b6 b7) t0 =>
      (* 0xxxxxxx *)
      if negb b7 then well_formed_utf8 t0
      (* 10xxxxxx, a continuation byte out of place *)
      else if negb b6 then false
      (* 110xxxxx, C0 and C1 apart *)
      else if negb b5 then
        match t0 with
        | String c1 t1 => (b4 || b3 || b2 || b1) && is_continuation c1 && well_formed_utf8 t1
        | EmptyString => false
        end
      (* 1110xxxx; after E0 the next byte is A0..BF, after ED it is 80..9F *)
      else if negb b4 then
        match t0 with
        | String (Ascii _ _ _ _ _ c5 _ _ as c1) (String c2 t2) =>
            is_continuation c1
            && (b3 || b2 || b1 || b0 || c5)
            && negb (b3 && b2 && negb b1 && b0 && c5)
            && is_continuation c2 && well_formed_utf8 t2
        | _ => false
        end
      (* 11110xxx up to F4; after F0 the next byte is 90..BF, after F4 it is 80..8F *)
      else if negb b3 then
        match t0 with
        | String (Ascii _ _ _ _ c4 c5 _ _ as c1) (String c2 (String c3 t3)) =>
            is_continuation c1
            && negb (b2 && (b1 || b0))
            && (b2 || b1 || b0 || c5 || c4)
            && negb (b2 && (c5 || c4))
            && is_continuation c2 && is_continuation c3 && well_formed_utf8 t3
        | _ => false
        end
      else false
  end.

Definition decode_utf8 (bytes : string) : option string :=
  if well_formed_utf8 bytes then Some bytes else None.

Definition nonzero_longlong (z : Z) : bool := (negb (z =? 0) && negb (z =? LLONG_MIN))%Z.

(** A platform whose floating types hold whole numbers only. *)
Definition whole_scalars : CScalars.
Proof.
  refine {|
    float := Z;
    double := Z;
    float_of_double := fun d => d;
    double_of_float := fun f => f;
    float_of_longlong := fun z => z;
    double_of_longlong := fun z => z;
    longlong_of_float := fun f => f;
    longlong_of_double := fun d => d;
    bool_of_float := fun f => negb (f =? 0)%Z;
    bool_of_double := fun d => negb (d =? 0)%Z;
    bool_of_longlong := nonzero_longlong;
    bool_of_longlong_zero := eq_refl;
    bool_of_longlong_nonzero := _;
    NSString_boolValue := fun _ => false;
    NSString_longLongValue := fun _ => 0%Z;
    NSString_doubleValue := fun _ => 0%Z;
    NSString_floatValue := fun _ => 0%Z;
    NSString_fromUTF8 := decode_utf8;
    NSString_fromUTF8_seven_bit := _
  |}.
  - abstract (intros z Hz Hmin; unfold nonzero_longlong;
              apply Z.eqb_neq in Hz, Hmin; now rewrite Hz, Hmin).
  - abstract (intros bytes Hb; unfold decode_utf8, seven_bit in *;
              assert (Hwf : well_formed_utf8 bytes = true)
                by (induction bytes as [|c bytes IH]; [reflexivity|];
                    inversion Hb as [|? ? Hc Hrest]; subst;
                    destruct c as [b0 b1 b2 b3 b4 b5 b6 b7]; simpl in Hc; subst b7;
                    apply IH, Hrest);
              now rewrite Hwf).
Defined.

Module Example.
#[local] Existing Instance whole_scalars.

(** Helpers that copy the bytes and keep the interval in whole seconds. *)
Definition plain_util : RLMUtil := {|
  RLMTimestampForNSDate := fun v =>
    match v with
    | NSDate t => Return (mkTimestamp t 0)
    | _ => unrecognized_selector "timeIntervalSinceReferenceDate"
    end;
  RLMTimestampToNSDate := fun t => NSDate (seconds t);
  RLMBinaryDataForNSData := fun v =>
    match v with
    | NSData d => Return (Some d)
    | _ => unrecognized_selector "bytes"
    end;
  RLMBinaryDataToNSData := fun b =>
    match b with
    | Some d => NSData d
    | None => nil
    end;
  RLMStringDataWithNSString := fun v =>
    match v with
    | NSString s => Return (mkStringData (Some s))
    | _ => unrecognized_selector "UTF8String"
    end
|}.

#[local] Existing Instance plain_util.

(** Person {id: primary key, name, dog: Dog?, friend: Person?}, Dog {name}. *)
Definition Person : ObjectSchema :=
  mkObjectSchema "Person"
    [ mkProperty "id" (Scalar KInt) true true;
      mkProperty "name" (Scalar KString) false true;
      mkProperty "dog" (Link "Dog") false false;
      mkProperty "friend" (Link "Person") false false ].

Definition Dog : ObjectSchema :=
  mkObjectSchema "Dog" [ mkProperty "name" (Scalar KString) false true ].

Definition str (s : string) : Value := VString (mkStringData (Some s)).

(** One person: {id: 1, name: "Ann", dog: null, friend: null}. *)
Definition ann : Realm :=
  mkRealm [Person; Dog] {[ "Person" := [[VInt 1; str "Ann"; VNull; VNull]] ]} [].

Definition empty_realm : Realm := mkRealm [Person; Dog] ∅ [].

Definition observing : RLMAccessorContext :=
  mkContext "Person" false None [] (Some (mkObject "Person" 0)).

Definition int (z : Z) : id := NSNumber (numberWithLongLong z).

Definition bob : id := NSDictionary [("id", int 1); ("name", NSString "Bob")].

Definition ann_with_rex : id :=
  NSDictionary [("id", int 1); ("name", NSString "Ann");
                ("dog", NSDictionary [("name", NSString "Rex")])].

(** A nested value with a primary key of its own. *)
Definition bob_with_friend : id :=
  NSDictionary [("id", int 1); ("name", NSString "Bob");
                ("friend", NSDictionary [("id", int 2); ("name", NSString "Cy")])].

(** A nested value that carries the primary key of the outer one. *)
Definition befriend_self : id :=
  NSDictionary [("id", int 1);
                ("friend", NSDictionary [("id", int 1); ("name", NSString "Zed")])].

(** Ann with her dog Rex. *)
Definition ann_with_dog : Realm :=
  mkRealm [Person; Dog]
    {[ "Person" := [[VInt 1; str "Ann"; VLink 0; VNull]]; "Dog" := [[str "Rex"]] ]} [].

(** A context whose default-value set gives every new person the friend
    with the primary key 1. *)
Definition defaulting : RLMAccessorContext :=
  mkContext "Person" false None
    [("friend", NSDictionary [("id", int 1); ("name", NSString "Zed")])] None.

(** A new friend, who omits the friend of their own. *)
Definition with_new_friend : id :=
  NSDictionary [("id", int 1);
                ("friend", NSDictionary [("id", int 2); ("name", NSString "Cy")])].

(** A kennel lists its dogs; two dogs are stored, the kennel lists the first. *)
Definition Kennel : ObjectSchema :=
  mkObjectSchema "Kennel" [ mkProperty "dogs" (LinkList "Dog") false false ].

Definition kennel : Realm :=
  mkRealm [Kennel; Dog]
    {[ "Kennel" := [[VList [VLink 0]]]; "Dog" := [[str "Rex"]; [str "Ace"]; [str "Kim"]] ]} [].

Definition dog (i : nat) : id := RLMObjectBase (mkObject "Dog" i).

Definition link_of (e : id) : Value :=
  match e with
  | RLMObjectBase o => VLink (row_index o)
  | _ => VNull
  end.

(** A visitor that lists a dog in the kennel and refuses anything else. *)
Definition list_dog (e : id) : M unit :=
  match e with
  | RLMObjectBase o => push_cell "Kennel" 0 0 (VLink (row_index o))
  | _ => throw (accessor_error InvalidReference "not a dog")
  end.

End Example.

(** * Properties *)

Section Properties.
Context `{CScalars} `{!RLMUtil}.

(** ** Scalar coercion *)

Lemma to_bool_from_bool (x : bool) : to_bool (from_bool x) = Return x.
Proof. reflexivity. Qed.

Lemma to_long_from_long (x : Z) : to_long (from_long x) = Return x.
Proof. reflexivity. Qed.

Lemma to_double_from_double (x : double) : to_double (from_double x) = Return x.
Proof. reflexivity. Qed.

Lemma to_float_from_float (x : float) : to_float (from_float x) = Return x.
Proof. reflexivity. Qed.

Lemma c_string_no_nul (bytes : string) : no_nul bytes -> c_string bytes = bytes.
Proof.
  induction bytes as [|c rest IH]; simpl; [reflexivity|].
  intros Hall. inversion Hall as [|? ? Hc Hrest]; subst.
  destruct (Ascii.eqb_spec c Ascii.zero) as [->|_]; [contradiction|].
  f_equal. apply IH, Hrest.
Qed.

Lemma c_string_has_no_nul (bytes : string) : no_nul (c_string bytes).
Proof.
  unfold no_nul. induction bytes as [|c bytes IH]; simpl; [constructor|].
  destruct (Ascii.eqb_spec c Ascii.zero) as [->|Hc]; simpl; [constructor|].
  constructor; assumption.
Qed.

Lemma c_string_is_prefix (bytes : string) :
  exists rest, bytes = String.append (c_string bytes) rest
               /\ (rest = EmptyString \/ exists r, rest = String Ascii.zero r).
Proof.
  induction bytes as [|c bytes IH]; simpl.
  - exists EmptyString. split; [reflexivity|now left].
  - destruct (Ascii.eqb_spec c Ascii.zero) as [->|Hc].
    + exists (String Ascii.zero bytes). split; [reflexivity|]. right. eexists. reflexivity.
    + destruct IH as (rest & Heq & Hrest). exists rest. split; [|exact Hrest].
      change (String c bytes = String c (String.append (c_string bytes) rest)).
      f_equal. exact Heq.
Qed.

Lemma seven_bit_c_string (bytes : string) : seven_bit bytes -> seven_bit (c_string bytes).
Proof.
  unfold seven_bit. induction bytes as [|c bytes IH]; simpl; [constructor|].
  intros Hall. inversion Hall as [|? ? Hc Hrest]; subst.
  destruct (Ascii.eqb c Ascii.zero); simpl; [constructor|].
  constructor; [exact Hc|apply IH, Hrest].
Qed.

(** [from_string] reads the bytes as a C string. *)
Lemma from_string_c_string (bytes : string) :
  from_string (mkStringData (Some bytes)) = from_string (mkStringData (Some (c_string bytes))).
Proof.
  unfold from_string, stringWithUTF8String. simpl.
  now rewrite (c_string_no_nul (c_string bytes) (c_string_has_no_nul bytes)).
Qed.

Lemma from_string_seven_bit (bytes : string) :
  seven_bit bytes ->
  from_string (mkStringData (Some bytes)) = Return (NSString (c_string bytes)).
Proof.
  intros Hb. unfold from_string, stringWithUTF8String. simpl.
  now rewrite (NSString_fromUTF8_seven_bit _ (seven_bit_c_string bytes Hb)).
Qed.

(** [from_string] keeps the bytes of a string of bytes below 128 that holds
    no zero byte. *)
Lemma from_string_no_nul (bytes : string) :
  no_nul bytes -> seven_bit bytes ->
  from_string (mkStringData (Some bytes)) = Return (NSString bytes).
Proof.
  intros Hn Hb. rewrite (from_string_seven_bit bytes Hb).
  now rewrite (c_string_no_nul bytes Hn).
Qed.

(** C3 (the code departs from the claim): [from_string] passes only
    [v.data()] on, so the bytes after the first zero byte are lost: the string
    "a\0b" and the string "a" become the same NSString, and whatever
    [to_string] does it cannot give both back. *)
Theorem from_string_stops_at_nul :
  let a0b := mkStringData (Some (String "a" (String Ascii.zero (String "b" EmptyString)))) in
  let a := mkStringData (Some (String "a" EmptyString)) in
  from_string a0b = Return (NSString (String "a" EmptyString))
  /\ from_string a0b = from_string a
  /\ a0b <> a
  /\ ~ (forall x : StringData, result_bind (from_string x) to_string = Return x).
Proof.
  intros a0b a.
  assert (Hsame : from_string a0b = from_string a) by apply from_string_c_string.
  assert (Ha : from_string a = Return (NSString (String "a" EmptyString))).
  { apply from_string_seven_bit. repeat constructor. }
  split; [now rewrite Hsame|]. split; [exact Hsame|]. split; [discriminate|].
  intros Hall. pose proof (Hall a0b) as Hlong. pose proof (Hall a) as Hshort.
  rewrite Hsame in Hlong. rewrite Hshort in Hlong. discriminate.
Qed.

(** C4: [to_mixed] throws for every value, the error is of kind
    UnsupportedType, no value is ever returned, and an operation that
    asks for the coercion ends with that error without going on. *)
Theorem to_mixed_unsupported (v : id) :
  to_mixed v = Throw (std_logic_error "'Any' type is unsupported")
  /\ (exists e, to_mixed v = Throw e /\ error_kind e = Some UnsupportedType)
  /\ (forall m, to_mixed v <> Return m)
  /\ (forall (B : Type) (k : Mixed -> M B) (s : Realm),
        (x <- lift (to_mixed v) ;; k x) s
        = (Throw (std_logic_error "'Any' type is unsupported"), s)).
Proof.
  split; [reflexivity|]. split; [eexists; split; reflexivity|].
  split; [discriminate|]. reflexivity.
Qed.

(** ** Null and missing values *)

(** C8: [is_null (null_value ())] is true, and [is_null v] holds exactly
    when [v] is the value [null_value ()] returns. *)
Theorem is_null_null_value :
  is_null null_value = true /\ forall v : id, is_null v = true <-> v = null_value.
Proof.
  split; [reflexivity|]. intros v. unfold null_value.
  destruct v; simpl; split; intros Hv; try reflexivity; discriminate.
Qed.

(** C7: [allow_missing v] is true exactly when [v] is an array, and false
    for every other value. *)
Theorem allow_missing_iff_array (v : id) :
  (allow_missing v = true <-> exists l, v = NSArray l)
  /\ ((forall l, v <> NSArray l) -> allow_missing v = false).
Proof.
  split.
  - split.
    + destruct v; try discriminate. intros _. eexists. reflexivity.
    + intros [l ->]. reflexivity.
  - intros Hv. destruct v; try reflexivity. exfalso. eapply Hv. reflexivity.
Qed.

(** C10: [deref] returns its argument, and is a total function that throws
    nothing. *)
Theorem deref_identity (v : id) : deref v = v.
Proof. reflexivity. Qed.

(** ** Container wrapping *)

(** C9: [from_list], [from_table], [from_results] and [from_object] are
    [wrap] of their argument, whatever the overloads of [wrap] are. *)
Theorem from_container_is_wrap :
  (forall (wrap_list : Wrap List) (h : List), from_list h = wrap h)
  /\ (forall (wrap_table : Wrap TableRef) (h : TableRef), from_table h = wrap h)
  /\ (forall (wrap_results : Wrap Results) (h : Results), from_results h = wrap h)
  /\ (forall (wrap_object : Wrap Object) (h : Object), from_object h = wrap h).
Proof. repeat split. Qed.

Lemma imap_pair_indices {A} (l : list A) : NoDup (imap pair l).*1.
Proof.
  rewrite fmap_imap.
  rewrite (imap_ext _ (fun j _ => j) l) by reflexivity.
  rewrite (imap_seq_0 l (fun j => j)), list_fmap_id. apply NoDup_seq.
Qed.

Lemma NoDup_omap_index {A} (f : nat * A -> option nat) (l : list (nat * A)) :
  (forall x y, f x = Some y -> y = x.1) -> NoDup l.*1 -> NoDup (omap f l).
Proof.
  intros Hf. induction l as [|x l IH]; intros Hnd; [constructor|].
  rewrite fmap_cons in Hnd. apply NoDup_cons in Hnd as [Hx Hnd].
  cbn [omap list_omap]. destruct (f x) as [y|] eqn:Hfx; [|now apply IH].
  apply NoDup_cons. split; [|now apply IH].
  intros Hy. apply list_elem_of_omap in Hy as (x' & Hx' & Hfx').
  apply Hx. rewrite <- (Hf x y Hfx), (Hf x' y Hfx').
  apply list_elem_of_fmap. now exists x'.
Qed.

Lemma matching_rows_spec (q : Row -> bool) (t : Table) (i : nat) :
  i ∈ matching_rows q t <-> exists row, t !! i = Some row /\ q row = true.
Proof.
  unfold matching_rows. rewrite list_elem_of_omap. split.
  - intros ([i' row] & Hin & Hq).
    apply elem_of_lookup_imap in Hin as (k & r & Heq & Hr). injection Heq as -> ->.
    destruct (q r) eqn:Hqr; [|discriminate Hq]. injection Hq as ->. now exists r.
  - intros (row & Hrow & Hq). exists (i, row). split.
    + now apply elem_of_lookup_imap_2.
    + now rewrite Hq.
Qed.

Lemma matching_rows_NoDup (q : Row -> bool) (t : Table) : NoDup (matching_rows q t).
Proof.
  apply NoDup_omap_index; [|apply imap_pair_indices].
  intros [i row] y. destruct (q row); [|discriminate]. intros Hy. now injection Hy as <-.
Qed.

Lemma wrapped_table_shows (s : Realm) (h : TableRef) :
  shows_table s h (RLMCollection (OfTable h)).
Proof.
  eexists. split; [reflexivity|]. simpl.
  rewrite length_map, length_seq. split; [reflexivity|].
  intros k Hk.
  change (map ?f ?l) with (f <$> l).
  rewrite list_lookup_fmap, lookup_seq_lt by exact Hk. reflexivity.
Qed.

Lemma wrapped_results_shows (s : Realm) (h : Results) :
  shows_results s h (RLMCollection (OfResults h)).
Proof.
  eexists. split; [reflexivity|]. simpl.
  change (map ?f ?l) with (f <$> l). split.
  - apply NoDup_fmap_2_strong; [|apply matching_rows_NoDup].
    intros i j _ _ Heq. now injection Heq.
  - intros x. rewrite list_elem_of_fmap. split.
    + intros (i & -> & Hi). apply matching_rows_spec in Hi as (row & Hrow & Hq).
      now exists i, row.
    + intros (i & row & -> & Hrow & Hq). exists i. split; [reflexivity|].
      apply matching_rows_spec. now exists row.
Qed.


(** ** Persisted-object handles *)

(** C2: a value that wraps a row handle resolves to the index of that row,
    with the realm untouched, when the handle is of the expected object
    type, and fails with TypeMismatch when it is of another type. *)
Theorem handle_resolution (fuel : nat) (ctx : RLMAccessorContext) (o : Object)
    (ty : string) (update : bool) (s : Realm) :
  (object_type o = ty ->
     to_object_index fuel ctx (RLMObjectBase o) ty update s = (Return (row_index o), s))
  /\ (object_type o <> ty ->
     exists e, to_object_index fuel ctx (RLMObjectBase o) ty update s = (Throw e, s)
               /\ error_kind e = Some TypeMismatch)
  /\ (object_type o = _info ctx ->
     to_existing_object_index ctx (RLMObjectBase o) s = (Return (row_index o), s))
  /\ (object_type o <> _info ctx ->
     exists e, to_existing_object_index ctx (RLMObjectBase o) s = (Throw e, s)
               /\ error_kind e = Some TypeMismatch).
Proof.
  unfold to_object_index, to_existing_object_index.
  assert (Hr : resolve fuel ctx (RLMObjectBase o) ty update
               = existing_object_index o ty) by (destruct fuel; reflexivity).
  rewrite Hr. unfold existing_object_index.
  repeat split.
  - intros ->. now rewrite String.eqb_refl.
  - intros Hne. apply String.eqb_neq in Hne. rewrite Hne. eexists. split; reflexivity.
  - intros ->. now rewrite String.eqb_refl.
  - intros Hne. apply String.eqb_neq in Hne. rewrite Hne. eexists. split; reflexivity.
Qed.

(** ** Calls against the realm *)

Lemma bind_Return {A B} (c : M A) (k : A -> M B) (s s' : Realm) (b : B) :
  (x <- c ;; k x) s = (Return b, s') ->
  exists a s1, c s = (Return a, s1) /\ k a s1 = (Return b, s').
Proof.
  unfold bind. destruct (c s) as [[a|e] s1]; [|discriminate].
  intros Hk. exists a, s1. split; [reflexivity|exact Hk].
Qed.

Lemma for_each_ext {A} (l : list A) (f g : A -> M unit) :
  (forall x s, f x s = g x s) -> forall s, for_each l f s = for_each l g s.
Proof.
  intros Hfg. induction l as [|x l IH]; intros s; simpl; [reflexivity|].
  unfold bind. rewrite Hfg. destruct (g x s) as [[[]|e] s1]; [apply IH|reflexivity].
Qed.

Lemma for_each_fmap {A B} (h : A -> B) (l : list A) (f : B -> M unit) (s : Realm) :
  for_each (h <$> l) f s = for_each l (fun x => f (h x)) s.
Proof.
  revert s. induction l as [|x l IH]; intros s; simpl; [reflexivity|].
  unfold bind. destruct (f (h x) s) as [[[]|e] s1]; [apply IH|reflexivity].
Qed.

Lemma list_enumerate_array (l : list id) (func : id -> M unit) (s : Realm) :
  list_enumerate (NSArray l) func s = for_each l func s.
Proof. reflexivity. Qed.

(** *** Cells *)

Lemma get_table_with_tables_eq (s : Realm) (ty : string) (t : Table) :
  get_table (with_tables s (<[ty := t]> (tables s))) ty = t.
Proof. unfold get_table. simpl. now rewrite lookup_insert_eq. Qed.

Lemma tables_with_tables_ne (s : Realm) (ty other : string) (t : Table) :
  ty <> other -> tables (with_tables s (<[ty := t]> (tables s))) !! other = tables s !! other.
Proof. intros Hne. simpl. now rewrite lookup_insert_ne. Qed.

Lemma get_cell_set_eq (s : Realm) (ty : string) (row col : nat) (x : Value) :
  is_Some (get_cell s ty row col) ->
  get_cell (set_cell ty row col x s).2 ty row col = Some x.
Proof.
  unfold get_cell, get_row, set_cell, modify. simpl.
  rewrite get_table_with_tables_eq, list_lookup_alter_eq.
  destruct (get_table s ty !! row) as [r|]; simpl; [|intros [? ?]; discriminate].
  intros Hcol. apply list_lookup_insert_eq. now apply lookup_lt_is_Some.
Qed.

Lemma get_cell_push_eq (s : Realm) (ty : string) (row col : nat) (x : Value)
    (items : list Value) :
  get_cell s ty row col = Some (VList items) ->
  get_cell (push_cell ty row col x s).2 ty row col = Some (VList (items ++ [x])).
Proof.
  unfold get_cell, get_row, push_cell, modify. simpl.
  rewrite get_table_with_tables_eq, list_lookup_alter_eq.
  destruct (get_table s ty !! row) as [r|]; simpl; [|discriminate].
  intros Hcol. now rewrite list_lookup_alter_eq, Hcol.
Qed.

(** Pushing the elements one by one appends them in their order. *)
Lemma for_each_push (ty : string) (row col : nat) (f : id -> Value) (l : list id) :
  forall (s : Realm) (items : list Value),
    get_cell s ty row col = Some (VList items) ->
    exists s', for_each l (fun e => push_cell ty row col (f e)) s = (Return tt, s')
               /\ get_cell s' ty row col = Some (VList (items ++ map f l)).
Proof.
  induction l as [|e l IH]; intros s items Hcell; simpl.
  - exists s. rewrite app_nil_r. split; [reflexivity|exact Hcell].
  - pose proof (get_cell_push_eq s ty row col (f e) items Hcell) as Hpush.
    destruct (IH _ _ Hpush) as (s' & Hrun & Hs').
    exists s'. split.
    + unfold bind. change (push_cell ty row col (f e) s)
        with (Return tt, (push_cell ty row col (f e) s).2). exact Hrun.
    + rewrite Hs'. now rewrite <- app_assoc.
Qed.

(** ** Enumeration *)

Lemma for_each_forward_pass (l : list id) (func : id -> M unit) (s : Realm) :
  for_each l func s = forward_pass l func s.
Proof.
  unfold forward_pass. revert s. induction l as [|x l IH]; intros s; [reflexivity|].
  simpl. rewrite <- fmap_S_seq. unfold bind at 1 2. unfold visit_at at 1. simpl.
  destruct (func x s) as [[[]|e] s1]; [|reflexivity].
  rewrite for_each_fmap. rewrite IH. apply for_each_ext. reflexivity.
Qed.

(** C5: [list_enumerate v func] is one forward pass over what fast
    enumeration of [v] yields: the element at each index is visited once,
    the indices in increasing order; and when the visitor appends to a list
    of the engine, the list ends with the elements in that order. *)
Theorem list_enumerate_forward_pass (v : id) (func : id -> M unit) (s : Realm) :
  list_enumerate v func s
  = match fast_enumeration s v with
    | Return l => forward_pass l func s
    | Throw e => (Throw e, s)
    end
  /\ forall (l : list id) (ty : string) (row col : nat) (f : id -> Value)
            (items : list Value),
       fast_enumeration s v = Return l ->
       get_cell s ty row col = Some (VList items) ->
       exists s', list_enumerate v (fun e => push_cell ty row col (f e)) s = (Return tt, s')
                  /\ get_cell s' ty row col = Some (VList (items ++ map f l)).
Proof.
  split.
  - unfold list_enumerate, bind. destruct (fast_enumeration s v) as [l|e]; [|reflexivity].
    apply for_each_forward_pass.
  - intros l ty row col f items Hl Hcell.
    unfold list_enumerate, bind. rewrite Hl. now apply for_each_push.
Qed.

(** ** Invariants of calls *)

Lemma inv_ret {A} (I : Realm -> Prop) (a : A) : inv I (ret a).
Proof. intros s Hs. exact Hs. Qed.

Lemma inv_throw {A} (I : Realm -> Prop) (e : exception) : inv I (throw (A := A) e).
Proof. intros s Hs. exact Hs. Qed.

Lemma inv_lift {A} (I : Realm -> Prop) (r : result A) : inv I (lift r).
Proof. intros s Hs. exact Hs. Qed.

Lemma inv_bind {A B} (I : Realm -> Prop) (c : M A) (k : A -> M B) :
  inv I c -> (forall a, inv I (k a)) -> inv I (x <- c ;; k x).
Proof.
  intros Hc Hk s Hs. unfold bind. specialize (Hc s Hs).
  destruct (c s) as [[a|e] s1]; simpl in *; [now apply Hk|exact Hc].
Qed.

Lemma inv_for_each {A} (I : Realm -> Prop) (l : list A) (body : A -> M unit) :
  (forall x, x ∈ l -> inv I (body x)) -> inv I (for_each l body).
Proof.
  induction l as [|x l IH]; intros Hbody; simpl; [apply inv_ret|].
  apply inv_bind; [apply Hbody; left|].
  intros _. apply IH. intros y Hy. apply Hbody. now right.
Qed.

Lemma inv_list_enumerate_array (I : Realm -> Prop) (l : list id) (func : id -> M unit) :
  (forall e, e ∈ l -> inv I (func e)) -> inv I (list_enumerate (NSArray l) func).
Proof.
  intros Hf s Hs. rewrite list_enumerate_array. now apply inv_for_each.
Qed.

Lemma allow_missing_array (v : id) : allow_missing v = true -> exists l, v = NSArray l.
Proof. destruct v; try discriminate. intros _. eexists. reflexivity. Qed.

Lemma local_blind (T : string) (I : Realm -> Prop) : local T I -> blind I.
Proof. intros HI s s' Hsch Htab. apply HI; [exact Hsch|now rewrite Htab]. Qed.

Section Blind.
Variable I : Realm -> Prop.
Hypothesis I_blind : blind I.

Lemma inv_will_change (ctx : RLMAccessorContext) (obj : Object) (prop : Property) :
  inv I (will_change ctx obj prop).
Proof.
  intros s Hs. unfold will_change, will_change_row.
  destruct (_observationInfo ctx); [|exact Hs].
  eapply I_blind; [| |exact Hs]; reflexivity.
Qed.

Lemma inv_did_change (ctx : RLMAccessorContext) : inv I (did_change ctx).
Proof.
  intros s Hs. unfold did_change. destruct (_observationInfo ctx); [|exact Hs].
  eapply I_blind; [| |exact Hs]; reflexivity.
Qed.

(** *** One property write *)

Section Write.
Variable ctx : RLMAccessorContext.
Variable rec : id -> string -> bool -> M nat.
Variable obj : Object.
Variable col : nat.
Variable update : bool.
Hypothesis I_set : forall x, inv I (set_cell (object_type obj) (row_index obj) col x).
Hypothesis I_push : forall x, inv I (push_cell (object_type obj) (row_index obj) col x).

Lemma inv_store (prop : Property) (x : Value) :
  inv I (will_change ctx obj prop ;;;
         set_cell (object_type obj) (row_index obj) col x ;;;
         did_change ctx).
Proof.
  apply inv_bind; [apply inv_will_change|]. intros _.
  apply inv_bind; [apply I_set|]. intros _. apply inv_did_change.
Qed.

Lemma inv_write_list (prop : Property) (v : id) (func : id -> M unit) :
  (forall l e, v = NSArray l -> e ∈ l -> inv I (func e)) ->
  inv I (if allow_missing v then
           will_change ctx obj prop ;;;
           set_cell (object_type obj) (row_index obj) col (VList []) ;;;
           list_enumerate v func ;;;
           did_change ctx
         else invalid_reference "not an array").
Proof.
  intros Hfunc. destruct (allow_missing v) eqn:Harr; [|apply inv_throw].
  destruct (allow_missing_array v Harr) as [l ->].
  apply inv_bind; [apply inv_will_change|]. intros _.
  apply inv_bind; [apply I_set|]. intros _.
  apply inv_bind; [|intros _; apply inv_did_change].
  apply inv_list_enumerate_array. intros e He. now apply (Hfunc l).
Qed.

Lemma inv_set_property_value (prop : Property) (v : id) :
  nested_inv I rec update prop v -> inv I (set_property_value ctx rec obj col prop v update).
Proof.
  intros Hnested. unfold set_property_value.
  destruct (is_null v) eqn:Hnull; [apply inv_store|].
  destruct (Hnested Hnull) as [Hlink Hlist].
  destruct (type prop) as [k|k|u|u] eqn:Htype.
  - apply inv_bind; [apply inv_lift|]. intros x. apply inv_store.
  - apply inv_write_list. intros l e _ _. unfold write_scalar_list.
    destruct (is_null e); [apply I_push|].
    apply inv_bind; [apply inv_lift|]. intros x. apply I_push.
  - apply inv_bind; [now apply Hlink|]. intros j. apply inv_store.
  - apply inv_write_list. intros l e Hv He. unfold write_link_list.
    destruct (is_null e) eqn:Hnulle; [apply inv_throw|].
    apply inv_bind; [now apply (Hlist u l)|]. intros j. apply I_push.
Qed.

End Write.

(** Every value a property can be written from, supplied or default; the
    primary key is not written. *)
Lemma inv_populate_property (ctx : RLMAccessorContext) (rec : id -> string -> bool -> M nat)
    (obj : Object) (update : bool) (os : ObjectSchema) (v : id) (created : bool)
    (col : nat) (prop : Property) :
  (is_primary prop = false ->
     forall x, inv I (set_cell (object_type obj) (row_index obj) col x)) ->
  (is_primary prop = false ->
     forall x, inv I (push_cell (object_type obj) (row_index obj) col x)) ->
  (forall w, w ∈ written_from ctx created os v (col, prop) -> nested_inv I rec update prop w) ->
  inv I (populate_property ctx rec os obj v update created (col, prop)).
Proof.
  intros Hset Hpush Hnested. unfold populate_property.
  unfold written_from in Hnested. cbn [fst snd] in Hnested.
  destruct (is_primary prop) eqn:Hprim; [apply inv_ret|].
  specialize (Hset eq_refl). specialize (Hpush eq_refl).
  destruct (is_absent (value_for_property v (name prop) col)) eqn:Habs.
  - destruct created; [|apply inv_ret].
    destruct (is_absent (default_value_for_property ctx os (name prop))).
    + destruct (is_required prop); [apply inv_throw|apply inv_ret].
    + apply inv_set_property_value; [exact Hset|exact Hpush|]. apply Hnested. left.
  - apply inv_set_property_value; [exact Hset|exact Hpush|]. apply Hnested. left.
Qed.

End Blind.

(** ** The rows a resolution leaves alone *)

Lemma row_local_local (T : string) (i : nat) (I : Realm -> Prop) :
  row_local T i I -> local T I.
Proof.
  intros Hrow s s' Hsch Htab HI. apply (Hrow s s'); [exact Hsch| |exact HI].
  unfold get_row, get_table. now rewrite Htab.
Qed.

Lemma row_local_blind (T : string) (i : nat) (I : Realm -> Prop) : row_local T i I -> blind I.
Proof. intros Hrow. apply (local_blind T), (row_local_local T i), Hrow. Qed.

Lemma row_kept_row_local (sch : list ObjectSchema) (T : string) (i : nat) (r0 : Row) :
  row_local T i (row_kept sch T i r0).
Proof. intros s s' Hsch Hrow [Hs Hr]. split; congruence. Qed.

Lemma nested_in_link {X} (ctx : RLMAccessorContext) (created : bool) (os : ObjectSchema)
    (rec : string -> id -> list X) (v w : id) (col : nat) (prop : Property)
    (u : string) (x : X) :
  persisted_properties os !! col = Some prop ->
  w ∈ written_from ctx created os v (col, prop) ->
  is_null w = false ->
  type prop = Link u -> x ∈ rec u w -> x ∈ nested_in ctx created os rec v.
Proof.
  intros Hprop Hw Hnull Htype Hx. unfold nested_in.
  apply list_elem_of_bind. exists (col, prop). split; [|now apply elem_of_lookup_imap_2].
  apply list_elem_of_bind. exists w. split; [|exact Hw]. simpl. now rewrite Hnull, Htype.
Qed.

Lemma nested_in_link_list {X} (ctx : RLMAccessorContext) (created : bool) (os : ObjectSchema)
    (rec : string -> id -> list X) (v e : id) (l : list id) (col : nat)
    (prop : Property) (u : string) (x : X) :
  persisted_properties os !! col = Some prop ->
  NSArray l ∈ written_from ctx created os v (col, prop) ->
  type prop = LinkList u -> e ∈ l -> is_null e = false -> x ∈ rec u e ->
  x ∈ nested_in ctx created os rec v.
Proof.
  intros Hprop Hw Htype He Hnull Hx. unfold nested_in.
  apply list_elem_of_bind. exists (col, prop). split; [|now apply elem_of_lookup_imap_2].
  apply list_elem_of_bind. exists (NSArray l). split; [|exact Hw]. simpl. rewrite Htype.
  apply list_elem_of_bind. exists e. split; [|exact He]. now rewrite Hnull.
Qed.

Lemma check_raw_spec (os : ObjectSchema) (v : id) (s : Realm) :
  (is_raw os v = true /\ check_raw os v s = (Return tt, s))
  \/ (is_raw os v = false /\ exists e, check_raw os v s = (Throw e, s)).
Proof.
  unfold check_raw, is_raw.
  destruct v; try (right; split; [reflexivity|eexists; reflexivity]); [|now left].
  destruct (_ =? _)%nat; [now left|right; split; [reflexivity|eexists; reflexivity]].
Qed.

Lemma inv_check_raw (I : Realm -> Prop) (os : ObjectSchema) (v : id) : inv I (check_raw os v).
Proof.
  intros s Hs. destruct (check_raw_spec os v s) as [[_ ->]|(_ & e & ->)]; exact Hs.
Qed.

(** What goes on after [check_raw] only matters for raw property data. *)
Lemma inv_bind_check_raw {B} (I : Realm -> Prop) (os : ObjectSchema) (v : id) (k : M B) :
  (is_raw os v = true -> inv I k) -> inv I (check_raw os v ;;; k).
Proof.
  intros Hk s Hs. unfold bind.
  destruct (check_raw_spec os v s) as [[Hraw ->]|(_ & e & ->)]; [now apply Hk|exact Hs].
Qed.

Lemma inv_existing_object_index (I : Realm -> Prop) (o : Object) (ty : string) :
  inv I (existing_object_index o ty).
Proof.
  unfold existing_object_index. destruct (String.eqb _ _); [apply inv_ret|apply inv_throw].
Qed.

Lemma inv_bind_lift {A B} (I : Realm -> Prop) (r : result A) (k : A -> M B) :
  (forall a, r = Return a -> inv I (k a)) -> inv I (x <- lift r ;; k x).
Proof.
  intros Hk s Hs. unfold bind, lift. destruct r as [a|e]; [now apply Hk|exact Hs].
Qed.

Lemma inv_bind_gets {A B} (I : Realm -> Prop) (f : Realm -> A) (k : A -> M B) :
  (forall s, I s -> inv I (k (f s))) -> inv I (x <- gets f ;; k x).
Proof. intros Hk s Hs. unfold bind, gets. now apply Hk. Qed.

Lemma inv_bind_insert_row {B} (I : Realm -> Prop) (ty : string) (r : Row) (k : nat -> M B) :
  (forall s, I s -> I (insert_row ty r s).2 /\ inv I (k (length (get_table s ty)))) ->
  inv I (i <- insert_row ty r ;; k i).
Proof.
  intros Hk s Hs. destruct (Hk s Hs) as [Hins Hrest].
  unfold bind, insert_row in *. simpl in *. now apply Hrest.
Qed.

Lemma resolve_cases (ctx : RLMAccessorContext) (sch : list ObjectSchema)
    (v : id) (ty : string) (update : bool) :
  (exists o, v = RLMObjectBase o)
  \/ ((forall fuel, resolve (S fuel) ctx v ty update
                    = create_or_update ctx (resolve fuel ctx) v ty update)
      /\ (forall fuel, upserted sch ctx (S fuel) ty v
                       = match find_schema_in sch ty with
                         | Some os =>
                             if is_raw os v
                             then own_key os ty v ++ nested_in ctx true os (upserted sch ctx fuel) v
                             else []
                         | None => []
                         end)
      /\ (forall fuel, accepted sch ctx (S fuel) ty v
                       = match find_schema_in sch ty with
                         | Some os =>
                             is_raw os v && key_ok os v
                             && forallb (acceptable ctx (accepted sch ctx fuel) true os v)
                                        (imap pair (persisted_properties os))
                         | None => false
                         end)
      /\ resolve O ctx v ty update = throw out_of_fuel
      /\ accepted sch ctx O ty v = false
      /\ (forall s0 s j, names_row s0 s ty v j <->
            exists os, find_schema s ty = Some os
              /\ match primary_key os with
                 | Some (kcol, kprop) =>
                     exists key,
                       primary_key_value kprop (value (value_for_property v (name kprop) kcol))
                       = Return key
                       /\ get_cell s ty j kcol = Some key
                 | None => length (get_table s0 ty) <= j < length (get_table s ty)
                 end)).
Proof. destruct v; eauto 10. Qed.

(** A key that matches a stored key is that key. *)
Lemma key_matches_stored (a c : Value) : key_matches a c = true -> a = c.
Proof.
  destruct a, c; simpl; try discriminate; intros Ha.
  - reflexivity.
  - apply Z.eqb_eq in Ha. congruence.
  - apply bool_decide_eq_true in Ha. congruence.
Qed.

(** Two keys that match the same stored key are the same key. *)
Lemma key_matches_eq (a b c : Value) :
  key_matches a c = true -> key_matches b c = true -> a = b.
Proof. intros Ha Hb. apply key_matches_stored in Ha, Hb. congruence. Qed.

(** The row the primary-key lookup finds holds a matching key. *)
Lemma find_primary_key_Some (t : Table) (col : nat) (key : Value) (i : nat) :
  find_primary_key t col key = Some i ->
  exists r stored, t !! i = Some r /\ r !! col = Some stored /\ key_matches key stored = true.
Proof.
  unfold find_primary_key. intros Hfind.
  destruct (List.find _ _) as [[j r]|] eqn:Hf; [|discriminate].
  simpl in Hfind. injection Hfind as ->.
  apply find_some in Hf as [Hin Hp]. simpl in Hp.
  apply list_elem_of_In, elem_of_lookup_imap in Hin as (j & r' & Heq & Hr).
  injection Heq as -> ->.
  destruct (r' !! col) as [stored|] eqn:Hcell; [|discriminate].
  exists r', stored. auto.
Qed.

Section KeptRow.
Variable sch : list ObjectSchema.
Variable ctx : RLMAccessorContext.
Variable T : string.
Variable i : nat.
Variable r0 : Row.
Variable key : Value.
Variable os : ObjectSchema.
Variable kcol : nat.
Variable kprop : Property.
Variable stored : Value.
Hypothesis schema_of_T : find_schema_in sch T = Some os.
Hypothesis key_of_T : primary_key os = Some (kcol, kprop).
Hypothesis key_cell : r0 !! kcol = Some stored.
Hypothesis key_stored : key_matches key stored = true.

Lemma row_kept_alter (ty : string) (i' : nat) (f : Row -> Row) (s : Realm) :
  ty <> T \/ i' <> i ->
  row_kept sch T i r0 s ->
  row_kept sch T i r0 (with_tables s (<[ty := alter f i' (get_table s ty)]> (tables s))).
Proof.
  intros Hor [Hs Hr]. split; [exact Hs|]. unfold get_row in *.
  destruct (decide (ty = T)) as [->|Hne].
  - rewrite get_table_with_tables_eq, list_lookup_alter_ne; [exact Hr|].
    destruct Hor; congruence.
  - unfold get_table in *. now rewrite tables_with_tables_ne.
Qed.

Lemma row_kept_set_cell (ty : string) (i' col : nat) (x : Value) :
  ty <> T \/ i' <> i -> inv (row_kept sch T i r0) (set_cell ty i' col x).
Proof. intros Hor s Hs. now apply row_kept_alter. Qed.

Lemma row_kept_push_cell (ty : string) (i' col : nat) (x : Value) :
  ty <> T \/ i' <> i -> inv (row_kept sch T i r0) (push_cell ty i' col x).
Proof. intros Hor s Hs. unfold push_cell, modify. simpl. now apply row_kept_alter. Qed.

Lemma row_kept_insert_row (ty : string) (r : Row) (s : Realm) :
  row_kept sch T i r0 s ->
  row_kept sch T i r0 (insert_row ty r s).2 /\ (ty <> T \/ length (get_table s ty) <> i).
Proof.
  intros [Hs Hr]. unfold insert_row, row_kept, get_row in *. simpl.
  destruct (decide (ty = T)) as [->|Hne].
  - pose proof (lookup_lt_Some _ _ _ Hr) as Hlt.
    rewrite get_table_with_tables_eq, lookup_app_l by exact Hlt.
    split; [now split|]. right. lia.
  - unfold get_table in *. rewrite tables_with_tables_ne by exact Hne.
    split; [now split|]. now left.
Qed.

Lemma populate_keeps_row (rec : id -> string -> bool -> M nat) (os' : ObjectSchema)
    (ty : string) (i' : nat) (v : id) (update created : bool) :
  ty <> T \/ i' <> i ->
  (forall col prop w,
      persisted_properties os' !! col = Some prop ->
      w ∈ written_from ctx created os' v (col, prop) ->
      nested_inv (row_kept sch T i r0) rec update prop w) ->
  inv (row_kept sch T i r0) (populate ctx rec os' (mkObject ty i') v update created).
Proof.
  intros Hor Hnested. apply inv_for_each. intros [col prop] Hin.
  apply elem_of_lookup_imap in Hin as (col' & prop' & Heq & Hprop).
  injection Heq as -> ->.
  apply (inv_populate_property _ (row_local_blind T i _ (row_kept_row_local sch T i r0))).
  - intros _ x. now apply row_kept_set_cell.
  - intros _ x. now apply row_kept_push_cell.
  - intros w Hw. now apply (Hnested col' prop').
Qed.

(** Creating or updating an object keeps row [i] of [T], unless the value
    names that row by its type and key. *)
Lemma create_or_update_keeps_row (rec : id -> string -> bool -> M nat) (v : id)
    (ty : string) (update : bool) :
  (forall os', find_schema_in sch ty = Some os' -> is_raw os' v = true ->
     (T, key) ∉ own_key os' ty v) ->
  (forall os' col prop w,
      find_schema_in sch ty = Some os' ->
      is_raw os' v = true ->
      persisted_properties os' !! col = Some prop ->
      w ∈ written_from ctx true os' v (col, prop) ->
      nested_inv (row_kept sch T i r0) rec update prop w) ->
  inv (row_kept sch T i r0) (create_or_update ctx rec v ty update).
Proof.
  intros Hown Hnested. unfold create_or_update.
  apply inv_bind_gets. intros s0 Hs0. unfold find_schema. rewrite (proj1 Hs0).
  destruct (find_schema_in sch ty) as [os'|] eqn:Hos'; [|apply inv_throw].
  apply inv_bind_check_raw. intros Hraw.
  specialize (Hown os' eq_refl Hraw).
  assert (Hnested' : forall created col prop w,
            persisted_properties os' !! col = Some prop ->
            w ∈ written_from ctx created os' v (col, prop) ->
            nested_inv (row_kept sch T i r0) rec update prop w).
  { intros created col prop w Hprop Hw. apply (Hnested os' col prop w eq_refl Hraw Hprop).
    unfold written_from in *. cbn [fst snd] in *.
    destruct (is_primary prop); [exact Hw|].
    destruct (is_absent (value_for_property v (name prop) col)); [|exact Hw].
    destruct created; [exact Hw|]. now apply elem_of_nil in Hw. }
  assert (Hinsert : forall r,
            inv (row_kept sch T i r0)
                (i' <- insert_row ty r ;;
                 populate ctx rec os' (mkObject ty i') v update true ;;; ret i')).
  { intros r. apply inv_bind_insert_row. intros s Hs.
    destruct (row_kept_insert_row ty r s Hs) as [Hins Hor]. split; [exact Hins|].
    apply inv_bind; [|intros _; apply inv_ret].
    apply populate_keeps_row; [exact Hor|]. intros col prop w. apply Hnested'. }
  destruct (primary_key os') as [[col prop]|] eqn:Hpk'; [|apply Hinsert].
  apply inv_bind_lift. intros key' Hkey'.
  apply inv_bind_gets. intros s Hs.
  destruct update; [|apply Hinsert].
  destruct (find_primary_key (get_table s ty) col key') as [i'|] eqn:Hfind; [|apply Hinsert].
  apply inv_bind; [|intros _; apply inv_ret].
  apply populate_keeps_row; [|intros c p w; apply Hnested'].
  destruct (decide (ty = T)) as [->|Hne]; [right|now left].
  intros ->. apply Hown. unfold own_key.
  rewrite schema_of_T in Hos'. injection Hos' as <-.
  rewrite key_of_T in Hpk' |- *. injection Hpk' as <- <-. rewrite Hkey'.
  apply find_primary_key_Some in Hfind as (r & stored' & Hr & Hcell & Hmatch).
  destruct Hs as [_ Hrow]. unfold get_row in Hrow. rewrite Hrow in Hr. injection Hr as <-.
  rewrite key_cell in Hcell. injection Hcell as <-.
  rewrite (key_matches_eq key' key stored Hmatch key_stored). left.
Qed.

(** A resolution keeps row [i] of [T] unless some property data in the
    value names that row. *)
Lemma resolve_keeps_row (fuel : nat) :
  forall (v : id) (ty : string) (update : bool),
    (T, key) ∉ upserted sch ctx fuel ty v ->
    inv (row_kept sch T i r0) (resolve fuel ctx v ty update).
Proof.
  induction fuel as [|fuel IH]; intros v ty update Hups.
  - destruct (resolve_cases ctx sch v ty update) as [[o ->]|(_ & _ & _ & -> & _)].
    + apply inv_existing_object_index.
    + apply inv_throw.
  - destruct (resolve_cases ctx sch v ty update) as [[o ->]|(Hstep & Hupserted & _)].
    + apply inv_existing_object_index.
    + rewrite Hstep. rewrite Hupserted in Hups.
      apply create_or_update_keeps_row.
      * intros os' Hos' Hraw. rewrite Hos', Hraw in Hups. intros Hin. apply Hups.
        apply elem_of_app. now left.
      * intros os' col prop w Hos' Hraw Hprop Hcand. rewrite Hos', Hraw in Hups.
        assert (Hnest : (T, key) ∉ nested_in ctx true os' (upserted sch ctx fuel) v)
          by (intros Hin; apply Hups, elem_of_app; now right).
        intros Hnull. split.
        -- intros u Htype. apply IH. intros Hin. apply Hnest.
           now apply (nested_in_link ctx true os' _ v w col prop u).
        -- intros u l e Htype -> He Hnulle. apply IH. intros Hin. apply Hnest.
           now apply (nested_in_link_list ctx true os' _ v e l col prop u).
Qed.

End KeptRow.

(** ** More fuel changes nothing once a resolution is not cut off *)

Lemma refines_refl {A} (c : M A) : refines c c.
Proof. intros s _. reflexivity. Qed.

Lemma refines_bind {A B} (c1 c2 : M A) (k1 k2 : A -> M B) :
  refines c1 c2 -> (forall a, refines (k1 a) (k2 a)) ->
  refines (x <- c1 ;; k1 x) (x <- c2 ;; k2 x).
Proof.
  intros Hc Hk s. unfold bind. specialize (Hc s).
  destruct (c1 s) as [[a|e] s1] eqn:Hc1; simpl in *.
  - intros Hrun. rewrite Hc by discriminate. now apply Hk.
  - intros Hrun. rewrite Hc; [reflexivity|].
    intros Heq. apply Hrun. injection Heq as ->. reflexivity.
Qed.

Lemma refines_for_each {A} (l : list A) (f g : A -> M unit) :
  (forall x, refines (f x) (g x)) -> refines (for_each l f) (for_each l g).
Proof.
  intros Hfg. induction l as [|x l IH]; simpl; [apply refines_refl|].
  apply refines_bind; [apply Hfg|]. intros _. exact IH.
Qed.

Lemma refines_list_enumerate (v : id) (f g : id -> M unit) :
  (forall e, refines (f e) (g e)) -> refines (list_enumerate v f) (list_enumerate v g).
Proof.
  intros Hfg. unfold list_enumerate. apply refines_bind; [apply refines_refl|].
  intros l. now apply refines_for_each.
Qed.

Lemma refines_create_or_update (ctx : RLMAccessorContext)
    (rec1 rec2 : id -> string -> bool -> M nat) (v : id) (ty : string) (update : bool) :
  (forall w u b, refines (rec1 w u b) (rec2 w u b)) ->
  refines (create_or_update ctx rec1 v ty update) (create_or_update ctx rec2 v ty update).
Proof.
  intros Hrec.
  assert (Hset : forall obj col prop w,
            refines (set_property_value ctx rec1 obj col prop w update)
                    (set_property_value ctx rec2 obj col prop w update)).
  { intros obj col prop w. unfold set_property_value.
    destruct (is_null w); [apply refines_refl|].
    destruct (type prop) as [k|k|u|u]; try apply refines_refl.
    - apply refines_bind; [apply Hrec|]. intros j. apply refines_refl.
    - destruct (allow_missing w); [|apply refines_refl].
      apply refines_bind; [apply refines_refl|]. intros _.
      apply refines_bind; [apply refines_refl|]. intros _.
      apply refines_bind; [|intros _; apply refines_refl].
      apply refines_list_enumerate. intros e. unfold write_link_list.
      destruct (is_null e); [apply refines_refl|].
      apply refines_bind; [apply Hrec|]. intros j. apply refines_refl. }
  assert (Hpop : forall os obj created,
            refines (populate ctx rec1 os obj v update created)
                    (populate ctx rec2 os obj v update created)).
  { intros os obj created. apply refines_for_each. intros [col prop].
    unfold populate_property. destruct (is_primary prop); [apply refines_refl|].
    destruct (is_absent _); [|apply Hset].
    destruct created; [|apply refines_refl].
    destruct (is_absent _); [apply refines_refl|apply Hset]. }
  unfold create_or_update. apply refines_bind; [apply refines_refl|].
  intros [os|]; [|apply refines_refl].
  apply refines_bind; [apply refines_refl|]. intros _.
  destruct (primary_key os) as [[col prop]|].
  - apply refines_bind; [apply refines_refl|]. intros key.
    apply refines_bind; [apply refines_refl|]. intros [i|].
    + apply refines_bind; [apply Hpop|]. intros _. apply refines_refl.
    + apply refines_bind; [apply refines_refl|]. intros i.
      apply refines_bind; [apply Hpop|]. intros _. apply refines_refl.
  - apply refines_bind; [apply refines_refl|]. intros i.
    apply refines_bind; [apply Hpop|]. intros _. apply refines_refl.
Qed.

(** A resolution that is not cut off does the same with any more fuel. *)
Lemma resolve_more_fuel (ctx : RLMAccessorContext) (fuel : nat) :
  forall (v : id) (ty : string) (update : bool),
    refines (resolve fuel ctx v ty update) (resolve (S fuel) ctx v ty update).
Proof.
  induction fuel as [|fuel IH]; intros v ty update.
  - destruct (resolve_cases ctx [] v ty update) as [[o ->]|(_ & _ & _ & -> & _)].
    + apply refines_refl.
    + intros s Hrun. now contradiction Hrun.
  - destruct (resolve_cases ctx [] v ty update) as [[o ->]|(Hstep & _)].
    + apply refines_refl.
    + rewrite !Hstep. apply refines_create_or_update. intros w u b. apply IH.
Qed.

Lemma resolve_fuel_enough (ctx : RLMAccessorContext) (fuel : nat) (v : id) (ty : string)
    (update : bool) (s : Realm) :
  (resolve fuel ctx v ty update s).1 <> Throw out_of_fuel ->
  forall more, resolve (more + fuel) ctx v ty update s = resolve fuel ctx v ty update s.
Proof.
  intros Hrun more. induction more as [|more IH]; [reflexivity|].
  cbn [Nat.add]. rewrite <- IH.
  apply (resolve_more_fuel ctx (more + fuel) v ty update s). now rewrite IH.
Qed.

(** ** Cells that a write leaves alone *)

Lemma get_cell_tables (s s' : Realm) (ty : string) (row col : nat) :
  tables s' !! ty = tables s !! ty -> get_cell s' ty row col = get_cell s ty row col.
Proof. intros Ht. unfold get_cell, get_row, get_table. now rewrite Ht. Qed.

Lemma primary_key_Some (os : ObjectSchema) (kcol : nat) (kprop : Property) :
  primary_key os = Some (kcol, kprop) ->
  persisted_properties os !! kcol = Some kprop /\ is_primary kprop = true.
Proof.
  unfold primary_key. intros Hfind. apply find_some in Hfind as [Hin Hprim].
  apply list_elem_of_In, elem_of_lookup_imap in Hin as (c & p & Heq & Hp).
  injection Heq as -> ->. now split.
Qed.

Lemma set_cell_alter (ty : string) (row col : nat) (x : Value) (s : Realm) :
  (set_cell ty row col x s).2
  = with_tables s (<[ty := alter (alter (fun _ => x) col) row (get_table s ty)]> (tables s)).
Proof.
  unfold set_cell, modify. simpl. do 2 f_equal.
  apply list_alter_ext; [|reflexivity]. intros r _.
  revert col. induction r as [|y r IH]; intros [|col]; simpl; try reflexivity.
  now rewrite IH.
Qed.

(** Altering one cell of row [i] leaves the other cells and the length. *)
Lemma get_cell_alter_ne (T : string) (i col c : nat) (f : Value -> Value) (s : Realm) :
  c <> col ->
  get_cell (with_tables s (<[T := alter (alter f col) i (get_table s T)]> (tables s))) T i c
  = get_cell s T i c.
Proof.
  intros Hc. unfold get_cell, get_row. rewrite get_table_with_tables_eq, list_lookup_alter_eq.
  destruct (get_table s T !! i) as [r|]; simpl; [|reflexivity].
  apply list_lookup_alter_ne. congruence.
Qed.

Lemma get_cell_alter_row_ne (T : string) (i i' col c : nat) (f : Value -> Value) (s : Realm) :
  i' <> i ->
  get_cell (with_tables s (<[T := alter (alter f col) i (get_table s T)]> (tables s))) T i' c
  = get_cell s T i' c.
Proof.
  intros Hi. unfold get_cell, get_row.
  rewrite get_table_with_tables_eq, list_lookup_alter_ne by congruence. reflexivity.
Qed.

Lemma get_row_length_alter (T : string) (i col : nat) (f : Value -> Value) (s : Realm) :
  length <$> get_row (with_tables s (<[T := alter (alter f col) i (get_table s T)]> (tables s)))
                     T i
  = length <$> get_row s T i.
Proof.
  unfold get_row. rewrite get_table_with_tables_eq, list_lookup_alter_eq.
  destruct (get_table s T !! i) as [r|]; simpl; [|reflexivity].
  now rewrite length_alter.
Qed.

Lemma get_table_alter_length (T ty : string) (i : nat) (f : Row -> Row) (s : Realm) :
  length (get_table (with_tables s (<[T := alter f i (get_table s T)]> (tables s))) ty)
  = length (get_table s ty).
Proof.
  destruct (decide (T = ty)) as [->|Hne].
  - now rewrite get_table_with_tables_eq, length_alter.
  - unfold get_table. now rewrite tables_with_tables_ne.
Qed.

(** ** A realm only grows *)

Lemma grows_refl (s : Realm) : grows s s.
Proof. split; [reflexivity|]. split; [reflexivity|]. intros; assumption. Qed.

Lemma grows_trans (s0 s1 s2 : Realm) : grows s0 s1 -> grows s1 s2 -> grows s0 s2.
Proof.
  intros (Hs1 & Hl1 & Hk1) (Hs2 & Hl2 & Hk2). split; [congruence|]. split.
  - intros ty. etransitivity; [apply Hl1|apply Hl2].
  - intros ty os col prop i x Hos Hprop Hprim Hcell.
    apply (Hk2 ty os col prop); try assumption.
    + unfold find_schema in *. now rewrite Hs1.
    + now apply (Hk1 ty os col prop).
Qed.

Lemma grows_blind (s0 : Realm) : blind (grows s0).
Proof.
  intros s s' Hsch Htab (Hs & Hl & Hk).
  assert (Hcells : forall ty i c, get_cell s' ty i c = get_cell s ty i c)
    by (intros; apply get_cell_tables; now rewrite Htab).
  assert (Htables : forall ty, get_table s' ty = get_table s ty)
    by (intros; unfold get_table; now rewrite Htab).
  split; [congruence|]. split.
  - intros ty. rewrite Htables. apply Hl.
  - intros ty os col prop i x Hos Hprop Hprim Hcell. rewrite Hcells. now apply (Hk ty os col prop).
Qed.

Lemma grows_insert_row (ty : string) (r : Row) (s : Realm) : grows s (insert_row ty r s).2.
Proof.
  unfold insert_row. cbn [snd]. split; [reflexivity|]. split.
  - intros ty'. destruct (decide (ty = ty')) as [->|Hne].
    + rewrite get_table_with_tables_eq, length_app. lia.
    + unfold get_table. now rewrite tables_with_tables_ne.
  - intros ty' os col prop i x _ _ _. unfold get_cell, get_row.
    destruct (decide (ty = ty')) as [->|Hne].
    + rewrite get_table_with_tables_eq.
      destruct (get_table s ty' !! i) as [row|] eqn:Hrow; [|discriminate].
      now rewrite (lookup_app_l_Some _ _ _ _ Hrow).
    + unfold get_table. now rewrite tables_with_tables_ne.
Qed.

(** Altering a cell that is not a primary key. *)
Lemma grows_alter (ty : string) (i col : nat) (f : Value -> Value) (s : Realm) :
  (forall os prop, find_schema s ty = Some os -> persisted_properties os !! col = Some prop ->
     is_primary prop = false) ->
  grows s (with_tables s (<[ty := alter (alter f col) i (get_table s ty)]> (tables s))).
Proof.
  intros Hcol. split; [reflexivity|]. split.
  - intros ty'. now rewrite get_table_alter_length.
  - intros ty' os c prop i' x Hos Hprop Hprim Hcell.
    destruct (decide (ty = ty')) as [<-|Hne].
    + destruct (decide (i' = i)) as [->|Hi].
      * rewrite get_cell_alter_ne; [exact Hcell|]. intros ->.
        specialize (Hcol os prop Hos Hprop). congruence.
      * now rewrite get_cell_alter_row_ne.
    + rewrite <- Hcell. apply get_cell_tables. now apply tables_with_tables_ne.
Qed.

Lemma grows_set_cell (s0 : Realm) (ty : string) (os : ObjectSchema) (col : nat)
    (prop : Property) (i : nat) (x : Value) :
  find_schema s0 ty = Some os -> persisted_properties os !! col = Some prop ->
  is_primary prop = false -> inv (grows s0) (set_cell ty i col x).
Proof.
  intros Hos Hprop Hprim s Hs. apply (grows_trans s0 s); [exact Hs|].
  rewrite set_cell_alter. apply grows_alter. intros os' prop' Hos' Hprop'.
  unfold find_schema in *. rewrite (proj1 Hs), Hos in Hos'. injection Hos' as <-.
  congruence.
Qed.

Lemma grows_push_cell (s0 : Realm) (ty : string) (os : ObjectSchema) (col : nat)
    (prop : Property) (i : nat) (x : Value) :
  find_schema s0 ty = Some os -> persisted_properties os !! col = Some prop ->
  is_primary prop = false -> inv (grows s0) (push_cell ty i col x).
Proof.
  intros Hos Hprop Hprim s Hs. apply (grows_trans s0 s); [exact Hs|].
  unfold push_cell, modify. cbn [snd]. apply grows_alter. intros os' prop' Hos' Hprop'.
  unfold find_schema in *. rewrite (proj1 Hs), Hos in Hos'. injection Hos' as <-.
  congruence.
Qed.

(** ** Invariants of every resolution *)

Section Everywhere.
Variable sch : list ObjectSchema.
Variable ctx : RLMAccessorContext.
Variable I : Realm -> Prop.
Hypothesis I_schema : forall s, I s -> schema s = sch.
Hypothesis I_blind : blind I.
Hypothesis I_insert : forall ty r, inv I (insert_row ty r).
Hypothesis I_set : forall ty os col prop i x,
  find_schema_in sch ty = Some os -> persisted_properties os !! col = Some prop ->
  is_primary prop = false -> inv I (set_cell ty i col x).
Hypothesis I_push : forall ty os col prop i x,
  find_schema_in sch ty = Some os -> persisted_properties os !! col = Some prop ->
  is_primary prop = false -> inv I (push_cell ty i col x).

Lemma populate_property_everywhere (rec : id -> string -> bool -> M nat) (os : ObjectSchema)
    (ty : string) (i : nat) (v : id) (update created : bool) (col : nat) (prop : Property) :
  find_schema_in sch ty = Some os ->
  persisted_properties os !! col = Some prop ->
  (forall w u b, inv I (rec w u b)) ->
  inv I (populate_property ctx rec os (mkObject ty i) v update created (col, prop)).
Proof.
  intros Hos Hprop Hrec. apply (inv_populate_property I I_blind).
  - intros Hprim x. now apply (I_set ty os col prop).
  - intros Hprim x. now apply (I_push ty os col prop).
  - intros w _ _. split; intros; apply Hrec.
Qed.

Lemma populate_everywhere (rec : id -> string -> bool -> M nat) (os : ObjectSchema)
    (ty : string) (i : nat) (v : id) (update created : bool) :
  find_schema_in sch ty = Some os ->
  (forall w u b, inv I (rec w u b)) ->
  inv I (populate ctx rec os (mkObject ty i) v update created).
Proof.
  intros Hos Hrec. apply inv_for_each. intros [col prop] Hin.
  apply elem_of_lookup_imap in Hin as (col' & prop' & Heq & Hprop).
  injection Heq as -> ->. now apply populate_property_everywhere.
Qed.

Lemma create_or_update_everywhere (rec : id -> string -> bool -> M nat) (v : id)
    (ty : string) (update : bool) :
  (forall w u b, inv I (rec w u b)) -> inv I (create_or_update ctx rec v ty update).
Proof.
  intros Hrec. unfold create_or_update.
  apply inv_bind_gets. intros s0 Hs0. unfold find_schema. rewrite (I_schema s0 Hs0).
  destruct (find_schema_in sch ty) as [os|] eqn:Hos; [|apply inv_throw].
  apply inv_bind; [apply inv_check_raw|]. intros _.
  assert (Hpop : forall i created,
            inv I (populate ctx rec os (mkObject ty i) v update created ;;; ret i)).
  { intros i created. apply inv_bind; [now apply populate_everywhere|].
    intros _. apply inv_ret. }
  assert (Hinsert : forall r,
            inv I (i <- insert_row ty r ;;
                   populate ctx rec os (mkObject ty i) v update true ;;; ret i)).
  { intros r. apply inv_bind; [apply I_insert|]. intros i. apply Hpop. }
  destruct (primary_key os) as [[col prop]|]; [|apply Hinsert].
  apply inv_bind_lift. intros key _.
  apply inv_bind_gets. intros s _.
  destruct (if update then _ else _); [apply Hpop|apply Hinsert].
Qed.

Lemma resolve_everywhere (fuel : nat) :
  forall (v : id) (ty : string) (update : bool), inv I (resolve fuel ctx v ty update).
Proof.
  induction fuel as [|fuel IH]; intros v ty update.
  - destruct (resolve_cases ctx sch v ty update) as [[o ->]|(_ & _ & _ & -> & _)].
    + apply inv_existing_object_index.
    + apply inv_throw.
  - destruct (resolve_cases ctx sch v ty update) as [[o ->]|(Hstep & _)].
    + apply inv_existing_object_index.
    + rewrite Hstep. apply create_or_update_everywhere. intros w u b. apply IH.
Qed.

End Everywhere.

(** No call of the resolution shrinks a table or rewrites a primary key. *)
Lemma resolve_inv_grows (ctx : RLMAccessorContext) (fuel : nat) (s0 : Realm) (v : id)
    (ty : string) (update : bool) :
  inv (grows s0) (resolve fuel ctx v ty update).
Proof.
  apply (resolve_everywhere (schema s0) ctx (grows s0)).
  - intros s Hs. exact (proj1 Hs).
  - apply grows_blind.
  - intros ty' r s Hs. apply (grows_trans s0 s); [exact Hs|apply grows_insert_row].
  - intros ty' os col prop i x. apply grows_set_cell.
  - intros ty' os col prop i x. apply grows_push_cell.
Qed.

Lemma populate_property_inv_grows (ctx : RLMAccessorContext) (fuel : nat) (s0 : Realm)
    (os : ObjectSchema) (ty : string) (i : nat) (v : id) (update created : bool)
    (col : nat) (prop : Property) :
  find_schema s0 ty = Some os ->
  persisted_properties os !! col = Some prop ->
  inv (grows s0)
      (populate_property ctx (resolve fuel ctx) os (mkObject ty i) v update created (col, prop)).
Proof.
  intros Hos Hprop.
  apply (populate_property_everywhere (schema s0) ctx (grows s0)); try assumption.
  - apply grows_blind.
  - intros ty' os' col' prop' i' x. apply grows_set_cell.
  - intros ty' os' col' prop' i' x. apply grows_push_cell.
  - intros w u b. apply resolve_inv_grows.
Qed.

Lemma populate_inv_grows (ctx : RLMAccessorContext) (fuel : nat) (s0 : Realm)
    (os : ObjectSchema) (ty : string) (i : nat) (v : id) (update created : bool) :
  find_schema s0 ty = Some os ->
  inv (grows s0) (populate ctx (resolve fuel ctx) os (mkObject ty i) v update created).
Proof.
  intros Hos. apply inv_for_each. intros [col prop] Hin.
  apply elem_of_lookup_imap in Hin as (col' & prop' & Heq & Hprop).
  injection Heq as -> ->. now apply populate_property_inv_grows.
Qed.

Lemma resolve_grows (ctx : RLMAccessorContext) (fuel : nat) (v : id) (ty : string)
    (update : bool) (s : Realm) :
  grows s (resolve fuel ctx v ty update s).2.
Proof. apply resolve_inv_grows, grows_refl. Qed.

(** ** The row a relationship value resolves to *)

Lemma names_row_later (s0 s s' : Realm) (u : string) (e : id) (j : nat) :
  grows s s' -> names_row s0 s u e j -> names_row s0 s' u e j.
Proof.
  intros (Hsch & Hlen & Hkeys).
  destruct (resolve_cases (mkContext u false None [] None) [] e u false)
    as [[o ->]|(_ & _ & _ & _ & _ & Hnames)]; [intros Hn; exact Hn|].
  rewrite !Hnames. intros (os & Hos & Hrow). exists os.
  split; [unfold find_schema in *; now rewrite Hsch|].
  destruct (primary_key os) as [[kcol kprop]|] eqn:Hpk.
  - destruct Hrow as (key & Hkey & Hcell). exists key. split; [exact Hkey|].
    destruct (primary_key_Some os kcol kprop Hpk) as [Hprop Hprim].
    now apply (Hkeys u os kcol kprop).
  - specialize (Hlen u). lia.
Qed.

Lemma names_row_earlier (s0 s s' : Realm) (u : string) (e : id) (j : nat) :
  grows s0 s -> names_row s s' u e j -> names_row s0 s' u e j.
Proof.
  intros (_ & Hlen & _).
  destruct (resolve_cases (mkContext u false None [] None) [] e u false)
    as [[o ->]|(_ & _ & _ & _ & _ & Hnames)]; [intros Hn; exact Hn|].
  rewrite !Hnames. intros (os & Hos & Hrow). exists os. split; [exact Hos|].
  destruct (primary_key os) as [[kcol kprop]|]; [exact Hrow|].
  specialize (Hlen u). lia.
Qed.

Lemma get_cell_insert_row (s : Realm) (ty : string) (r : Row) (col : nat) :
  get_cell (insert_row ty r s).2 ty (length (get_table s ty)) col = r !! col.
Proof.
  unfold insert_row, get_cell, get_row. cbn [snd].
  rewrite get_table_with_tables_eq.
  now rewrite lookup_app_r, Nat.sub_diag by lia.
Qed.

(** A resolution that returns, returns the row the value names. *)
Lemma resolve_names_row (ctx : RLMAccessorContext) (fuel : nat) (e : id) (u : string)
    (update : bool) (s s2 : Realm) (j : nat) :
  resolve fuel ctx e u update s = (Return j, s2) -> names_row s s2 u e j.
Proof.
  intros Hrun.
  pose proof (resolve_grows ctx fuel e u update s) as Hgrows. rewrite Hrun in Hgrows.
  cbn [snd] in Hgrows.
  destruct (resolve_cases ctx [] e u update)
    as [[o ->]|(Hstep & _ & _ & Hzero & _ & Hnames)].
  { assert (Hr : resolve fuel ctx (RLMObjectBase o) u update = existing_object_index o u)
      by (destruct fuel; reflexivity).
    rewrite Hr in Hrun. unfold existing_object_index in Hrun.
    destruct (String.eqb (object_type o) u) eqn:Hty; [|discriminate Hrun].
    injection Hrun as <- _. split; [now apply String.eqb_eq|reflexivity]. }
  rewrite Hnames. destruct fuel as [|fuel]; [rewrite Hzero in Hrun; discriminate Hrun|].
  rewrite Hstep in Hrun. unfold create_or_update in Hrun.
  apply bind_Return in Hrun as (found & s1 & Hfound & Hrun).
  unfold gets in Hfound. injection Hfound as <- <-.
  destruct (find_schema s u) as [os|] eqn:Hos; [|discriminate Hrun].
  exists os. split; [unfold find_schema in *; now rewrite (proj1 Hgrows)|].
  apply bind_Return in Hrun as ([] & s1 & Hraw & Hrun).
  destruct (check_raw_spec os e s) as [[_ Hok]|(_ & err & Herr)];
    [|rewrite Herr in Hraw; discriminate Hraw].
  rewrite Hok in Hraw. injection Hraw as <-.
  assert (Hinserted : forall r,
            (i <- insert_row u r ;;
             populate ctx (resolve fuel ctx) os (mkObject u i) e update true ;;; ret i) s
            = (Return j, s2) ->
            j = length (get_table s u)
            /\ grows (insert_row u r s).2 s2).
  { intros r Hins. apply bind_Return in Hins as (i & s1 & Hrow & Hins).
    unfold insert_row in Hrow. injection Hrow as <- <-.
    apply bind_Return in Hins as ([] & s3 & Hpop & Hret).
    unfold ret in Hret. injection Hret as <- <-. split; [reflexivity|].
    pose proof (populate_inv_grows ctx fuel (insert_row u r s).2 os u
                  (length (get_table s u)) e update true Hos _ (grows_refl _)) as Hg.
    unfold insert_row in Hg at 2. cbn [snd] in Hg. rewrite Hpop in Hg. exact Hg. }
  destruct (primary_key os) as [[kcol kprop]|] eqn:Hpk.
  - destruct (primary_key_Some os kcol kprop Hpk) as [Hprop Hprim].
    apply bind_Return in Hrun as (key & s1 & Hkey & Hrun).
    unfold lift in Hkey. injection Hkey as Hkey <-.
    apply bind_Return in Hrun as (existing & s1 & Hex & Hrun).
    unfold gets in Hex. injection Hex as <- <-.
    exists key. split; [exact Hkey|].
    destruct (if update then find_primary_key (get_table s u) kcol key else None)
      as [i|] eqn:Hfind.
    + destruct update; [|discriminate Hfind].
      apply bind_Return in Hrun as ([] & s3 & Hpop & Hret).
      unfold ret in Hret. injection Hret as <- <-.
      apply find_primary_key_Some in Hfind as (r & stored & Hr & Hcell & Hmatch).
      apply key_matches_stored in Hmatch as <-.
      apply (proj2 (proj2 Hgrows) u os kcol kprop); try assumption.
      unfold get_cell, get_row. now rewrite Hr.
    + destruct (Hinserted _ Hrun) as [-> Hg].
      apply (proj2 (proj2 Hg) u os kcol kprop); try assumption.
      rewrite get_cell_insert_row. apply list_lookup_insert_eq.
      unfold empty_row. rewrite length_map. now apply lookup_lt_Some in Hprop.
  - destruct (Hinserted _ Hrun) as [-> Hg]. split; [lia|].
    pose proof (proj1 (proj2 Hg) u) as Hlen.
    unfold insert_row in Hlen. cbn [snd] in Hlen.
    rewrite get_table_with_tables_eq, length_app in Hlen. simpl in Hlen. lia.
Qed.

(** ** Updating an existing row *)

Lemma bind_will_change {B} (ctx : RLMAccessorContext) (obj : Object) (prop : Property)
    (k : M B) (s : Realm) :
  (will_change ctx obj prop ;;; k) s = k (will_change ctx obj prop s).2.
Proof. unfold will_change, will_change_row, bind. destruct (_observationInfo ctx); reflexivity. Qed.

Lemma tables_will_change (ctx : RLMAccessorContext) (obj : Object) (prop : Property)
    (s : Realm) :
  schema (will_change ctx obj prop s).2 = schema s
  /\ tables (will_change ctx obj prop s).2 = tables s.
Proof.
  unfold will_change, will_change_row. destruct (_observationInfo ctx); split; reflexivity.
Qed.

Lemma did_change_run (ctx : RLMAccessorContext) (s : Realm) :
  did_change ctx s = (Return tt, (did_change ctx s).2)
  /\ schema (did_change ctx s).2 = schema s
  /\ tables (did_change ctx s).2 = tables s.
Proof. unfold did_change. destruct (_observationInfo ctx); repeat split; reflexivity. Qed.

Lemma supplied_columns_spec (os : ObjectSchema) (v : id) (col : nat) (prop : Property) :
  persisted_properties os !! col = Some prop ->
  col ∈ supplied_columns os v <-> supplied v col prop = true.
Proof.
  intros Hprop. unfold supplied_columns. rewrite list_elem_of_fmap. split.
  - intros ([col' prop'] & -> & Hin). apply list_elem_of_filter in Hin as [Hsup Hin].
    apply elem_of_lookup_imap in Hin as (c & p & Heq & Hp). injection Heq as -> ->.
    simpl in *. rewrite Hprop in Hp. now injection Hp as ->.
  - intros Hsup. exists (col, prop). split; [reflexivity|].
    apply list_elem_of_filter. split; [exact Hsup|]. now apply elem_of_lookup_imap_2.
Qed.

Lemma cells_kept_refl (T : string) (i : nat) (W : list nat) (s0 : Realm) :
  cells_kept T i W s0 s0.
Proof. split; reflexivity. Qed.

Lemma cells_kept_row_local (T : string) (i : nat) (W : list nat) (s0 : Realm) :
  row_local T i (cells_kept T i W s0).
Proof.
  intros s s' _ Hrow [Hcells Hlen]. unfold cells_kept, get_cell in *. rewrite Hrow.
  now split.
Qed.

Lemma holds_row_local (T : string) (i col : nat) (x : Value) :
  row_local T i (holds T i col x).
Proof. intros s s' _ Hrow Hcell. unfold holds, get_cell in *. now rewrite Hrow. Qed.

Lemma populate_property_skip (ctx : RLMAccessorContext) (rec : id -> string -> bool -> M nat)
    (os : ObjectSchema) (obj : Object) (v : id) (update : bool) (col : nat) (prop : Property) :
  supplied v col prop = false ->
  populate_property ctx rec os obj v update false (col, prop) = ret tt.
Proof.
  unfold supplied, populate_property. destruct (is_primary prop); [reflexivity|].
  destruct (is_absent _); [reflexivity|discriminate].
Qed.

Lemma populate_property_supplied (ctx : RLMAccessorContext)
    (rec : id -> string -> bool -> M nat) (os : ObjectSchema) (obj : Object) (v : id)
    (update created : bool) (col : nat) (prop : Property) :
  supplied v col prop = true ->
  populate_property ctx rec os obj v update created (col, prop)
  = set_property_value ctx rec obj col prop (value (value_for_property v (name prop) col)) update.
Proof.
  unfold supplied, populate_property. destruct (is_primary prop); [discriminate|].
  destruct (is_absent _); [discriminate|reflexivity].
Qed.

Lemma stored_as_later (s0 s s' : Realm) (prop : Property) (w : id) (x : Value) :
  grows s s' -> stored_as s0 s prop w x -> stored_as s0 s' prop w x.
Proof.
  intros Hg. unfold stored_as. destruct (is_null w); [auto|].
  destruct (type prop) as [k|k|u|u]; try (intros Hx; exact Hx).
  - intros (j & -> & Hj). exists j. split; [reflexivity|]. now apply (names_row_later s0 s).
  - intros (l & js & -> & -> & Hall). exists l, js. split; [reflexivity|].
    split; [reflexivity|]. eapply Forall2_impl; [exact Hall|].
    intros e j. now apply names_row_later.
Qed.

Lemma stored_as_earlier (s0 s s' : Realm) (prop : Property) (w : id) (x : Value) :
  grows s0 s -> stored_as s s' prop w x -> stored_as s0 s' prop w x.
Proof.
  intros Hg. unfold stored_as. destruct (is_null w); [auto|].
  destruct (type prop) as [k|k|u|u]; try (intros Hx; exact Hx).
  - intros (j & -> & Hj). exists j. split; [reflexivity|]. now apply (names_row_earlier s0 s).
  - intros (l & js & -> & -> & Hall). exists l, js. split; [reflexivity|].
    split; [reflexivity|]. eapply Forall2_impl; [exact Hall|].
    intros e j. now apply names_row_earlier.
Qed.

(** What a list of scalars holds after the elements were written to it. *)
Lemma for_each_write_scalar_list (k : ScalarKind) (T : string) (i col : nat) (l : list id) :
  forall (s s1 : Realm) (xs0 : list Value),
    get_cell s T i col = Some (VList xs0) ->
    for_each l (write_scalar_list k (mkObject T i) col) s = (Return tt, s1) ->
    exists xs,
      get_cell s1 T i col = Some (VList (xs0 ++ xs))
      /\ Forall2 (fun e y => if is_null e then y = VNull else to_scalar k e = Return y) l xs.
Proof.
  induction l as [|e l IH]; intros s s1 xs0 Hcell Hrun.
  - injection Hrun as <-. exists []. rewrite app_nil_r. now split.
  - cbn [for_each] in Hrun. apply bind_Return in Hrun as ([] & sa & Hstep & Hrest).
    assert (Hpushed : exists y,
              (if is_null e then y = VNull else to_scalar k e = Return y)
              /\ sa = (push_cell T i col y s).2).
    { unfold write_scalar_list in Hstep. cbn [object_type row_index] in Hstep.
      destruct (is_null e).
      - exists VNull. split; [reflexivity|]. now injection Hstep as <-.
      - apply bind_Return in Hstep as (y & s' & Hy & Hpush).
        unfold lift in Hy. injection Hy as Hy <-.
        exists y. split; [exact Hy|]. now injection Hpush as <-. }
    destruct Hpushed as (y & Hy & ->).
    pose proof (get_cell_push_eq s T i col y xs0 Hcell) as Hcell'.
    destruct (IH _ _ _ Hcell' Hrest) as (xs & Hcell1 & Hall).
    exists (y :: xs). split; [now rewrite <- app_assoc in Hcell1|].
    constructor; assumption.
Qed.

Section Existing.
Variable ctx : RLMAccessorContext.
Variable fuel : nat.
Variable sch : list ObjectSchema.
Variable T : string.
Variable i : nat.
Variable os : ObjectSchema.
Variable v : id.
Variable key : Value.
Variable kcol : nat.
Variable kprop : Property.
Variable stored : Value.
Hypothesis schema_of_T : find_schema_in sch T = Some os.
Hypothesis key_of_T : primary_key os = Some (kcol, kprop).
Hypothesis key_stored : key_matches key stored = true.
Hypothesis no_nested : (T, key) ∉ nested_in ctx false os (upserted sch ctx fuel) v.

Lemma with_key_local (J : Realm -> Prop) :
  row_local T i J -> local T (with_key sch T i kcol stored J).
Proof.
  intros HJ. apply (row_local_local T i). intros s s' Hsch Hrow [[Hs Hkey] HJs].
  split; [split; [congruence|]|now apply (HJ s s')].
  unfold get_cell in *. now rewrite Hrow.
Qed.

(** A call that keeps the row, whatever it holds beside the key, keeps
    every invariant that only reads the row. *)
Lemma inv_with_key {A} (J : Realm -> Prop) (c : M A) :
  row_local T i J ->
  (forall r0, r0 !! kcol = Some stored -> inv (row_kept sch T i r0) c) ->
  inv (with_key sch T i kcol stored J) c.
Proof.
  intros HJ Hc s [[Hs Hkey] HJs].
  unfold get_cell in Hkey. destruct (get_row s T i) as [r0|] eqn:Hrow; [|discriminate].
  destruct (Hc r0 Hkey s (conj Hs Hrow)) as [Hs' Hrow'].
  assert (Hsame : get_row (c s).2 T i = get_row s T i) by congruence.
  split; [split; [exact Hs'|]|apply (HJ s); [congruence|exact Hsame|exact HJs]].
  unfold get_cell. now rewrite Hrow'.
Qed.

(** The nested resolutions keep every invariant that only reads the row. *)
Lemma nested_inv_with_key (J : Realm -> Prop) (col : nat) (prop : Property) (w : id) :
  row_local T i J ->
  persisted_properties os !! col = Some prop ->
  w ∈ written_from ctx false os v (col, prop) ->
  nested_inv (with_key sch T i kcol stored J) (resolve fuel ctx) true prop w.
Proof.
  intros HJ Hprop Hw Hnull. split.
  - intros u Htype. apply inv_with_key; [exact HJ|]. intros r0 Hr0.
    apply (resolve_keeps_row sch ctx T i r0 key os kcol kprop stored); try assumption.
    intros Hin. apply no_nested. now apply (nested_in_link ctx false os _ v w col prop u).
  - intros u l e Htype -> He Hnulle. apply inv_with_key; [exact HJ|]. intros r0 Hr0.
    apply (resolve_keeps_row sch ctx T i r0 key os kcol kprop stored); try assumption.
    intros Hin. apply no_nested.
    now apply (nested_in_link_list ctx false os _ v e l col prop u).
Qed.

Lemma supplied_written (col : nat) (prop : Property) :
  supplied v col prop = true ->
  is_primary prop = false
  /\ value (value_for_property v (name prop) col) ∈ written_from ctx false os v (col, prop).
Proof.
  unfold supplied, written_from. cbn [fst snd].
  destruct (is_primary prop); [discriminate|].
  destruct (is_absent _); [discriminate|]. intros _. split; [reflexivity|left].
Qed.

Lemma supplied_not_key (col : nat) (prop : Property) :
  persisted_properties os !! col = Some prop -> supplied v col prop = true -> col <> kcol.
Proof.
  intros Hprop Hsup ->. destruct (primary_key_Some os kcol kprop key_of_T) as [Hk Hprim].
  rewrite Hprop in Hk. injection Hk as ->. unfold supplied in Hsup.
  rewrite Hprim in Hsup. discriminate.
Qed.

(** Altering a cell that is not the key cell. *)
Lemma with_key_alter (J : Realm -> Prop) (col : nat) (f : Value -> Value) (s : Realm) :
  col <> kcol ->
  (forall s, J s ->
     J (with_tables s (<[T := alter (alter f col) i (get_table s T)]> (tables s)))) ->
  with_key sch T i kcol stored J s ->
  with_key sch T i kcol stored J
    (with_tables s (<[T := alter (alter f col) i (get_table s T)]> (tables s))).
Proof.
  intros Hcol HJ [[Hs Hkey] HJs]. split; [split; [exact Hs|]|now apply HJ].
  rewrite get_cell_alter_ne; [exact Hkey|congruence].
Qed.

Lemma cells_kept_alter (W : list nat) (s0 s : Realm) (col : nat) (f : Value -> Value) :
  col ∈ W -> cells_kept T i W s0 s ->
  cells_kept T i W s0
    (with_tables s (<[T := alter (alter f col) i (get_table s T)]> (tables s))).
Proof.
  intros Hcol [Hcells Hlen]. split.
  - intros c Hc. rewrite get_cell_alter_ne; [now apply Hcells|]. intros ->. contradiction.
  - now rewrite get_row_length_alter.
Qed.

(** One step of the update writes its own column of row [i] at most. *)
Lemma populate_property_kept (W : list nat) (s0 : Realm) (col : nat) (prop : Property) :
  persisted_properties os !! col = Some prop ->
  (supplied v col prop = true -> col ∈ W) ->
  inv (with_key sch T i kcol stored (cells_kept T i W s0))
      (populate_property ctx (resolve fuel ctx) os (mkObject T i) v true false (col, prop)).
Proof.
  intros Hprop HW. destruct (supplied v col prop) eqn:Hsup.
  - pose proof (supplied_not_key col prop Hprop Hsup) as Hcol.
    apply (inv_populate_property _
             (local_blind T _ (with_key_local _ (cells_kept_row_local T i W s0)))).
    + intros _ x s Hs. rewrite set_cell_alter. apply with_key_alter; [exact Hcol| |exact Hs].
      intros s' Hs'. apply cells_kept_alter; [now apply HW|exact Hs'].
    + intros _ x s Hs. unfold push_cell, modify. simpl.
      apply (with_key_alter _ col); [exact Hcol| |exact Hs].
      intros s' Hs'. apply cells_kept_alter; [now apply HW|exact Hs'].
    + intros w Hw. apply (nested_inv_with_key _ col); [apply cells_kept_row_local|assumption..].
  - rewrite populate_property_skip by exact Hsup. apply inv_ret.
Qed.

Lemma populate_kept (s0 : Realm) :
  inv (with_key sch T i kcol stored (cells_kept T i (supplied_columns os v) s0))
      (populate ctx (resolve fuel ctx) os (mkObject T i) v true false).
Proof.
  apply inv_for_each. intros [col prop] Hin.
  apply elem_of_lookup_imap in Hin as (c & p & Heq & Hp). injection Heq as -> ->.
  apply populate_property_kept; [assumption|].
  intros Hsup. now apply (supplied_columns_spec os v c p).
Qed.

(** *** What a written cell holds *)

Section Column.
Variable col : nat.
Variable prop : Property.
Hypothesis prop_of_col : persisted_properties os !! col = Some prop.
Hypothesis not_primary : is_primary prop = false.
Hypothesis not_key : col <> kcol.

Lemma key_kept_schema (s : Realm) : key_kept sch T i kcol stored s -> find_schema s T = Some os.
Proof. intros [Hs _]. unfold find_schema. now rewrite Hs. Qed.

(** The two hooks and the write between them. *)
Lemma store_stores (x : Value) (s : Realm) :
  key_kept sch T i kcol stored s ->
  is_Some (get_cell s T i col) ->
  exists s1,
    (will_change ctx (mkObject T i) prop ;;; set_cell T i col x ;;; did_change ctx) s
    = (Return tt, s1)
    /\ get_cell s1 T i col = Some x
    /\ grows s s1.
Proof.
  intros Hkey Hcell.
  assert (Hrun : exists s1,
            (will_change ctx (mkObject T i) prop ;;; set_cell T i col x ;;; did_change ctx) s
            = (Return tt, s1)
            /\ get_cell s1 T i col = Some x).
  { rewrite bind_will_change.
    destruct (tables_will_change ctx (mkObject T i) prop s) as [_ Htab].
    set (s2 := (will_change ctx (mkObject T i) prop s).2) in *.
    assert (Hcell2 : is_Some (get_cell s2 T i col))
      by (rewrite (get_cell_tables s s2); [exact Hcell|now rewrite Htab]).
    pose proof (get_cell_set_eq s2 T i col x Hcell2) as Hset.
    unfold bind. change (set_cell T i col x s2) with (Return tt, (set_cell T i col x s2).2).
    set (s3 := (set_cell T i col x s2).2) in *. cbv beta iota.
    destruct (did_change_run ctx s3) as (Hr & _ & Htab3). rewrite Hr.
    exists (did_change ctx s3).2. split; [reflexivity|].
    rewrite (get_cell_tables s3); [exact Hset|now rewrite Htab3]. }
  destruct Hrun as (s1 & Hrun & Hcell1). exists s1.
  split; [exact Hrun|]. split; [exact Hcell1|].
  pose proof (inv_store (grows s) (grows_blind s) ctx (mkObject T i) col
                (fun y => grows_set_cell s T os col prop i y (key_kept_schema s Hkey)
                            prop_of_col not_primary) prop x s (grows_refl s)) as Hg.
  cbn [object_type row_index] in Hg. rewrite Hrun in Hg. exact Hg.
Qed.

(** The run of a list write: the hooks, the list emptied, the elements. *)
Lemma write_list_run (w : id) (func : id -> M unit) (s s1 : Realm) :
  key_kept sch T i kcol stored s ->
  is_Some (get_cell s T i col) ->
  (if allow_missing w then
     will_change ctx (mkObject T i) prop ;;;
     set_cell T i col (VList []) ;;;
     list_enumerate w func ;;;
     did_change ctx
   else invalid_reference "not an array") s = (Return tt, s1) ->
  exists l s3 s4,
    w = NSArray l
    /\ key_kept sch T i kcol stored s3
    /\ get_cell s3 T i col = Some (VList [])
    /\ grows s s3
    /\ for_each l func s3 = (Return tt, s4)
    /\ grows s4 s1
    /\ get_cell s1 T i col = get_cell s4 T i col.
Proof.
  intros Hkey Hcell Hrun.
  destruct (allow_missing w) eqn:Harr; [|discriminate].
  destruct (allow_missing_array w Harr) as [l ->]. exists l.
  rewrite bind_will_change in Hrun.
  pose proof (inv_will_change (grows s) (grows_blind s) ctx (mkObject T i) prop s
                (grows_refl s)) as Hg2.
  destruct (tables_will_change ctx (mkObject T i) prop s) as [Hsch2 Htab].
  set (s2 := (will_change ctx (mkObject T i) prop s).2) in *.
  assert (Hcells2 : forall c, get_cell s2 T i c = get_cell s T i c)
    by (intros c; apply get_cell_tables; now rewrite Htab).
  assert (Hcell2 : is_Some (get_cell s2 T i col)) by now rewrite Hcells2.
  pose proof (get_cell_set_eq s2 T i col (VList []) Hcell2) as Hset.
  pose proof (grows_set_cell s T os col prop i (VList []) (key_kept_schema s Hkey)
                prop_of_col not_primary s2 Hg2) as Hg3.
  unfold bind at 1 in Hrun.
  change (set_cell T i col (VList []) s2)
    with (Return tt, (set_cell T i col (VList []) s2).2) in Hrun.
  assert (Hkey3 : get_cell (set_cell T i col (VList []) s2).2 T i kcol = Some stored).
  { rewrite set_cell_alter, get_cell_alter_ne by congruence. rewrite Hcells2. exact (proj2 Hkey). }
  set (s3 := (set_cell T i col (VList []) s2).2) in *.
  apply bind_Return in Hrun as ([] & s4 & Hloop & Hdid).
  rewrite list_enumerate_array in Hloop.
  destruct (did_change_run ctx s4) as (Hr & _ & Htab4). rewrite Hr in Hdid.
  injection Hdid as <-.
  exists s3, s4. split; [reflexivity|]. split.
  { split; [|exact Hkey3]. rewrite (proj1 Hg3). exact (proj1 Hkey). }
  split; [exact Hset|]. split; [exact Hg3|]. split; [exact Hloop|]. split.
  - apply (inv_did_change (grows s4) (grows_blind s4) ctx s4 (grows_refl s4)).
  - apply get_cell_tables. now rewrite Htab4.
Qed.

(** What a list of links holds after the elements were resolved and
    appended to it. *)
Lemma for_each_write_link_list (u : string) (elements : list id) :
  type prop = LinkList u ->
  NSArray elements ∈ written_from ctx false os v (col, prop) ->
  forall (l : list id) (s s1 : Realm) (js0 : list nat),
    (forall e, e ∈ l -> e ∈ elements) ->
    key_kept sch T i kcol stored s ->
    get_cell s T i col = Some (VList (VLink <$> js0)) ->
    for_each l (write_link_list (resolve fuel ctx) u true (mkObject T i) col) s
    = (Return tt, s1) ->
    exists js,
      get_cell s1 T i col = Some (VList (VLink <$> (js0 ++ js)))
      /\ Forall2 (names_row s s1 u) l js
      /\ grows s s1.
Proof.
  intros Htype Hw. induction l as [|e l IH]; intros s s1 js0 Hsub Hkey Hcell Hrun.
  - injection Hrun as <-. exists []. rewrite app_nil_r.
    split; [exact Hcell|]. split; [constructor|apply grows_refl].
  - cbn [for_each] in Hrun. apply bind_Return in Hrun as ([] & sa & Hstep & Hrest).
    unfold write_link_list in Hstep. cbn [object_type row_index] in Hstep.
    destruct (is_null e) eqn:Hnulle; [discriminate Hstep|].
    apply bind_Return in Hstep as (j & sb & Hnest & Hpush).
    unfold push_cell, modify in Hpush. injection Hpush as Hsa.
    destruct (nested_inv_with_key (holds T i col (VList (VLink <$> js0))) col prop
                (NSArray elements) (holds_row_local T i col _) prop_of_col Hw eq_refl)
      as [_ Hlist].
    pose proof (Hlist u elements e Htype eq_refl (Hsub e (list_elem_of_here _ _)) Hnulle
                  s (conj Hkey Hcell)) as Hkept.
    rewrite Hnest in Hkept. cbn [snd] in Hkept. destruct Hkept as [Hkeyb Hcellb].
    pose proof (resolve_names_row ctx fuel e u true s sb j Hnest) as Hnames.
    pose proof (resolve_grows ctx fuel e u true s) as Hgb. rewrite Hnest in Hgb.
    cbn [snd] in Hgb.
    assert (Hga : grows sb sa).
    { rewrite <- Hsa. apply grows_alter. intros os' prop' Hos' Hprop'.
      rewrite (key_kept_schema sb Hkeyb) in Hos'. injection Hos' as <-. congruence. }
    assert (Hkeya : key_kept sch T i kcol stored sa).
    { rewrite <- Hsa.
      apply (with_key_alter (fun _ => True) col); [exact not_key|auto|now split]. }
    assert (Hcella : get_cell sa T i col = Some (VList (VLink <$> (js0 ++ [j])))).
    { rewrite fmap_app. rewrite <- Hsa.
      apply (get_cell_push_eq sb T i col (VLink j)). exact Hcellb. }
    destruct (IH sa s1 (js0 ++ [j]) (fun e' He' => Hsub e' (list_elem_of_further _ _ _ He'))
                Hkeya Hcella Hrest) as (js & Hcell1 & Hall & Hg1).
    exists (j :: js). split; [now rewrite <- app_assoc in Hcell1|]. split.
    + constructor.
      * apply (names_row_later s sb); [|exact Hnames]. now apply (grows_trans sb sa).
      * eapply Forall2_impl; [exact Hall|]. intros e' j'.
        apply names_row_earlier. now apply (grows_trans s sb).
    + apply (grows_trans s sb); [exact Hgb|]. now apply (grows_trans sb sa).
Qed.

Lemma set_property_value_stores (w : id) (s s1 : Realm) :
  key_kept sch T i kcol stored s ->
  w ∈ written_from ctx false os v (col, prop) ->
  is_Some (get_cell s T i col) ->
  set_property_value ctx (resolve fuel ctx) (mkObject T i) col prop w true s = (Return tt, s1) ->
  exists x, get_cell s1 T i col = Some x /\ stored_as s s1 prop w x.
Proof.
  intros Hkey Hw Hcell. unfold set_property_value, stored_as.
  cbv zeta. cbn [object_type row_index].
  destruct (is_null w) eqn:Hnull.
  { intros Hrun. destruct (store_stores (empty_value (type prop)) s Hkey Hcell)
      as (s' & Hrun' & Hcell' & _).
    rewrite Hrun' in Hrun. injection Hrun as <-. eauto. }
  destruct (type prop) as [k|k|u|u] eqn:Htype.
  - unfold bind at 1, lift. destruct (to_scalar k w) as [x|e]; [|discriminate].
    intros Hrun. destruct (store_stores x s Hkey Hcell) as (s' & Hrun' & Hcell' & _).
    rewrite Hrun' in Hrun. injection Hrun as <-. eauto.
  - intros Hrun.
    destruct (write_list_run w _ s s1 Hkey Hcell Hrun)
      as (l & s3 & s4 & -> & Hkey3 & Hcell3 & Hg3 & Hloop & Hg4 & Hsame).
    destruct (for_each_write_scalar_list k T i col l s3 s4 [] Hcell3 Hloop)
      as (xs & Hcell4 & Hall).
    exists (VList xs). split; [now rewrite Hsame|]. now exists l, xs.
  - unfold bind at 1.
    destruct (resolve fuel ctx w u true s) as [[j|e] s2] eqn:Hnest; [|discriminate].
    intros Hrun.
    destruct (nested_inv_with_key (fun s' => is_Some (get_cell s' T i col)) col prop w)
      as [Hlink _]; [|exact prop_of_col|exact Hw|exact Hnull|].
    { intros s' s'' _ Hrow Hsome. unfold get_cell in *. now rewrite Hrow. }
    pose proof (Hlink u Htype s (conj Hkey Hcell)) as Hkept. rewrite Hnest in Hkept.
    destruct Hkept as [Hkey2 Hcell2]. cbn [snd] in Hkey2, Hcell2.
    destruct (store_stores (VLink j) s2 Hkey2 Hcell2) as (s' & Hrun' & Hcell' & Hg).
    rewrite Hrun' in Hrun. injection Hrun as <-.
    exists (VLink j). split; [exact Hcell'|]. exists j. split; [reflexivity|].
    apply (names_row_later s s2); [exact Hg|].
    now apply (resolve_names_row ctx fuel w u true s s2 j).
  - intros Hrun.
    destruct (write_list_run w _ s s1 Hkey Hcell Hrun)
      as (l & s3 & s4 & -> & Hkey3 & Hcell3 & Hg3 & Hloop & Hg4 & Hsame).
    destruct (for_each_write_link_list u l Htype Hw l s3 s4 [] (fun e He => He)
                Hkey3 Hcell3 Hloop) as (js & Hcell4 & Hall & Hg34).
    exists (VList (VLink <$> js)). split; [now rewrite Hsame|].
    exists l, js. split; [reflexivity|]. split; [reflexivity|].
    eapply Forall2_impl; [exact Hall|]. intros e j Hn.
    apply (names_row_earlier s s3); [exact Hg3|].
    now apply (names_row_later s3 s4).
Qed.

End Column.

(** After a run that returns, every supplied column holds what was written. *)
Lemma populate_stores (ips : list (nat * Property)) :
  (forall col prop, (col, prop) ∈ ips -> persisted_properties os !! col = Some prop) ->
  NoDup ips.*1 ->
  forall s s',
    key_kept sch T i kcol stored s ->
    for_each ips (populate_property ctx (resolve fuel ctx) os (mkObject T i) v true false) s
    = (Return tt, s') ->
    grows s s'
    /\ forall col prop,
         (col, prop) ∈ ips -> supplied v col prop = true -> is_Some (get_cell s T i col) ->
         exists x, get_cell s' T i col = Some x
                   /\ stored_as s s' prop (value (value_for_property v (name prop) col)) x.
Proof.
  induction ips as [|[c0 p0] ips IH]; intros Hprops Hnd s s' Hkey Hrun.
  { injection Hrun as <-. split; [apply grows_refl|].
    intros col prop Hin. now apply elem_of_nil in Hin. }
  cbn [for_each] in Hrun. apply bind_Return in Hrun as ([] & s1 & Hstep & Hrest).
  rewrite fmap_cons in Hnd. apply NoDup_cons in Hnd as [Hc0 Hnd]. simpl in Hc0.
  assert (Hp0 : persisted_properties os !! c0 = Some p0) by (apply Hprops; left).
  pose proof (populate_property_kept [c0] s c0 p0 Hp0
                (fun _ => list_elem_of_here _ _) s (conj Hkey (cells_kept_refl _ _ _ _)))
    as Hhead.
  rewrite Hstep in Hhead. cbn [snd] in Hhead.
  destruct Hhead as (Hkey1 & Hcells1 & _).
  pose proof (populate_property_inv_grows ctx fuel s os T i v true false c0 p0
                (key_kept_schema s Hkey) Hp0 s (grows_refl s)) as Hg1.
  rewrite Hstep in Hg1. cbn [snd] in Hg1.
  destruct (IH (fun c p Hcp => Hprops c p (list_elem_of_further _ _ _ Hcp)) Hnd s1 s' Hkey1 Hrest)
    as [Hg' Htail].
  split; [now apply (grows_trans s s1)|].
  intros col prop Hin Hsup Hcell.
  assert (Hkept : cells_kept T i ips.*1 s1 s').
  { assert (Hinv : inv (with_key sch T i kcol stored (cells_kept T i ips.*1 s1))
              (for_each ips (populate_property ctx (resolve fuel ctx) os (mkObject T i)
                               v true false))).
    { apply inv_for_each. intros [c p] Hcp. apply populate_property_kept.
      - apply Hprops. now right.
      - intros _. apply list_elem_of_fmap. exists (c, p). now split. }
    specialize (Hinv s1 (conj Hkey1 (cells_kept_refl _ _ _ _))).
    rewrite Hrest in Hinv. exact (proj2 Hinv). }
  destruct Hkept as (Hcells' & _).
  apply elem_of_cons in Hin as [Heq|Hin].
  - injection Heq as -> ->. rewrite populate_property_supplied in Hstep by exact Hsup.
    destruct (supplied_written c0 p0 Hsup) as [Hprim Hw].
    destruct (set_property_value_stores c0 p0 Hp0 Hprim (supplied_not_key c0 p0 Hp0 Hsup)
                _ s s1 Hkey Hw Hcell Hstep) as (x & Hx & Hstored).
    exists x. split; [rewrite Hcells'; [exact Hx|exact Hc0]|].
    now apply (stored_as_later s s1).
  - destruct (Htail col prop Hin Hsup) as (x & Hx & Hstored).
    + rewrite Hcells1; [exact Hcell|].
      intros Hcol. apply list_elem_of_singleton in Hcol as ->.
      apply Hc0, list_elem_of_fmap. exists (c0, prop). now split.
    + exists x. split; [exact Hx|]. now apply (stored_as_earlier s s1).
Qed.

End Existing.

(** ** The values a resolution accepts *)

Lemma forallb_elem_of {A} (f : A -> bool) (l : list A) (x : A) :
  forallb f l = true -> x ∈ l -> f x = true.
Proof. intros Hall Hx. apply (proj1 (forallb_forall f l) Hall), list_elem_of_In, Hx. Qed.

Section Succeeds.
Variable sch : list ObjectSchema.

Lemma succeeds_ret {A} (a : A) : succeeds sch (ret a).
Proof. intros s Hs. now exists a, s. Qed.

Lemma succeeds_bind {A B} (c : M A) (k : A -> M B) :
  succeeds sch c -> (forall a, succeeds sch (k a)) -> succeeds sch (x <- c ;; k x).
Proof.
  intros Hc Hk s Hs. destruct (Hc s Hs) as (a & s1 & Hrun & Hs1).
  unfold bind. rewrite Hrun. now apply Hk.
Qed.

Lemma succeeds_for_each {A} (l : list A) (body : A -> M unit) :
  (forall x, x ∈ l -> succeeds sch (body x)) -> succeeds sch (for_each l body).
Proof.
  induction l as [|x l IH]; intros Hbody; simpl; [apply succeeds_ret|].
  apply succeeds_bind; [apply Hbody; left|].
  intros _. apply IH. intros y Hy. apply Hbody. now right.
Qed.

Lemma succeeds_modify (f : Realm -> Realm) :
  (forall s, schema (f s) = schema s) -> succeeds sch (modify f).
Proof. intros Hf s Hs. exists tt, (f s). split; [reflexivity|]. now rewrite Hf. Qed.

Lemma succeeds_set_cell (ty : string) (i col : nat) (x : Value) :
  succeeds sch (set_cell ty i col x).
Proof. now apply succeeds_modify. Qed.

Lemma succeeds_push_cell (ty : string) (i col : nat) (x : Value) :
  succeeds sch (push_cell ty i col x).
Proof. now apply succeeds_modify. Qed.

Lemma succeeds_insert_row (ty : string) (r : Row) : succeeds sch (insert_row ty r).
Proof. intros s Hs. eexists _, _. split; [reflexivity|exact Hs]. Qed.

Lemma succeeds_will_change (ctx : RLMAccessorContext) (obj : Object) (prop : Property) :
  succeeds sch (will_change ctx obj prop).
Proof.
  unfold will_change, will_change_row.
  destruct (_observationInfo ctx); [now apply succeeds_modify|apply succeeds_ret].
Qed.

Lemma succeeds_did_change (ctx : RLMAccessorContext) : succeeds sch (did_change ctx).
Proof.
  unfold did_change.
  destruct (_observationInfo ctx); [now apply succeeds_modify|apply succeeds_ret].
Qed.

Lemma succeeds_lift {A} (r : result A) : returns r = true -> succeeds sch (lift r).
Proof. destruct r as [a|e]; [|discriminate]. intros _ s Hs. now exists a, s. Qed.

Section Accepted.
Variable ctx : RLMAccessorContext.
Variable rec : id -> string -> bool -> M nat.
Variable ok : string -> id -> bool.
Variable update : bool.
Hypothesis rec_ok : forall u e, ok u e = true -> succeeds sch (rec e u update).

Lemma succeeds_store (obj : Object) (col : nat) (prop : Property) (x : Value) :
  succeeds sch (will_change ctx obj prop ;;;
                set_cell (object_type obj) (row_index obj) col x ;;;
                did_change ctx).
Proof.
  apply succeeds_bind; [apply succeeds_will_change|]. intros _.
  apply succeeds_bind; [apply succeeds_set_cell|]. intros _. apply succeeds_did_change.
Qed.

Lemma succeeds_write_list (obj : Object) (col : nat) (prop : Property) (l : list id)
    (func : id -> M unit) :
  (forall e, e ∈ l -> succeeds sch (func e)) ->
  succeeds sch (will_change ctx obj prop ;;;
                set_cell (object_type obj) (row_index obj) col (VList []) ;;;
                list_enumerate (NSArray l) func ;;;
                did_change ctx).
Proof.
  intros Hfunc.
  apply succeeds_bind; [apply succeeds_will_change|]. intros _.
  apply succeeds_bind; [apply succeeds_set_cell|]. intros _.
  apply succeeds_bind; [|intros _; apply succeeds_did_change].
  intros s Hs. rewrite list_enumerate_array. now apply succeeds_for_each.
Qed.

Lemma succeeds_set_property_value (obj : Object) (col : nat) (prop : Property) (w : id) :
  writable ok prop w = true ->
  succeeds sch (set_property_value ctx rec obj col prop w update).
Proof.
  unfold writable, set_property_value.
  destruct (is_null w); [intros _; apply succeeds_store|].
  destruct (type prop) as [k|k|u|u].
  - intros Hk. apply succeeds_bind; [now apply succeeds_lift|]. intros x. apply succeeds_store.
  - destruct w; try discriminate. intros Hall. cbn [allow_missing isKindOfClass class_of].
    apply succeeds_write_list. intros e He. unfold write_scalar_list.
    pose proof (forallb_elem_of _ _ e Hall He) as Hok. cbv beta in Hok.
    destruct (is_null e); [apply succeeds_push_cell|].
    apply succeeds_bind; [now apply succeeds_lift|]. intros x. apply succeeds_push_cell.
  - intros Hok. apply succeeds_bind; [now apply rec_ok|]. intros j. apply succeeds_store.
  - destruct w; try discriminate. intros Hall. cbn [allow_missing isKindOfClass class_of].
    apply succeeds_write_list. intros e He. unfold write_link_list.
    pose proof (forallb_elem_of _ _ e Hall He) as Hok. cbv beta in Hok.
    destruct (is_null e); [discriminate Hok|].
    apply succeeds_bind; [now apply rec_ok|]. intros j. apply succeeds_push_cell.
Qed.

Lemma succeeds_populate_property (os : ObjectSchema) (obj : Object) (v : id) (created : bool)
    (ip : nat * Property) :
  acceptable ctx ok created os v ip = true ->
  succeeds sch (populate_property ctx rec os obj v update created ip).
Proof.
  destruct ip as [col prop]. unfold acceptable, populate_property.
  destruct (is_primary prop); [intros _; apply succeeds_ret|].
  destruct (is_absent (value_for_property v (name prop) col)).
  - destruct created; [|intros _; apply succeeds_ret].
    destruct (is_absent (default_value_for_property ctx os (name prop))).
    + destruct (is_required prop); [discriminate|intros _; apply succeeds_ret].
    + apply succeeds_set_property_value.
  - apply succeeds_set_property_value.
Qed.

Lemma succeeds_populate (os : ObjectSchema) (obj : Object) (v : id) (created : bool) :
  forallb (acceptable ctx ok created os v) (imap pair (persisted_properties os)) = true ->
  succeeds sch (populate ctx rec os obj v update created).
Proof.
  intros Hall. apply succeeds_for_each. intros ip Hip.
  apply succeeds_populate_property. now apply (forallb_elem_of _ _ ip Hall).
Qed.

(** What is asked of a row that is created is enough for a row that is
    found. *)
Lemma acceptable_found (os : ObjectSchema) (v : id) (ip : nat * Property) :
  acceptable ctx ok true os v ip = true -> acceptable ctx ok false os v ip = true.
Proof.
  destruct ip as [col prop]. unfold acceptable.
  destruct (is_primary prop); [reflexivity|].
  now destruct (is_absent (value_for_property v (name prop) col)).
Qed.

Lemma succeeds_create_or_update (os : ObjectSchema) (v : id) (ty : string) :
  find_schema_in sch ty = Some os ->
  is_raw os v = true ->
  key_ok os v = true ->
  forallb (acceptable ctx ok true os v) (imap pair (persisted_properties os)) = true ->
  succeeds sch (create_or_update ctx rec v ty update).
Proof.
  intros Hos Hraw Hkey Hall s Hs. unfold create_or_update, bind at 1, gets, find_schema.
  rewrite Hs, Hos. unfold bind at 1.
  destruct (check_raw_spec os v s) as [[_ ->]|[Hno _]]; [|congruence].
  assert (Hpop : forall i created,
            succeeds sch (populate ctx rec os (mkObject ty i) v update created ;;; ret i)).
  { intros i created. apply succeeds_bind; [|intros _; apply succeeds_ret].
    apply succeeds_populate. destruct created; [exact Hall|].
    apply forallb_forall. intros ip Hip. apply acceptable_found.
    apply (forallb_elem_of _ _ ip Hall). now apply list_elem_of_In. }
  assert (Hinsert : forall r,
            succeeds sch (i <- insert_row ty r ;;
                          populate ctx rec os (mkObject ty i) v update true ;;; ret i)).
  { intros r. apply succeeds_bind; [apply succeeds_insert_row|]. intros i. apply Hpop. }
  unfold key_ok in Hkey. destruct (primary_key os) as [[col prop]|]; [|now apply Hinsert].
  unfold bind at 1, lift.
  destruct (primary_key_value prop _) as [key|e]; [|discriminate Hkey].
  unfold bind at 1.
  destruct (if update then _ else _); [now apply Hpop|now apply Hinsert].
Qed.

End Accepted.

(** An accepted value resolves: the resolution returns, and is not cut
    off. *)
Lemma succeeds_resolve (ctx : RLMAccessorContext) (fuel : nat) :
  forall (v : id) (ty : string) (update : bool),
    accepted sch ctx fuel ty v = true -> succeeds sch (resolve fuel ctx v ty update).
Proof.
  induction fuel as [|fuel IH]; intros v ty update Hacc.
  - destruct (resolve_cases ctx sch v ty update) as [[o ->]|(_ & _ & _ & _ & Hno & _)];
      [|congruence].
    simpl in *. unfold existing_object_index. rewrite Hacc. apply succeeds_ret.
  - destruct (resolve_cases ctx sch v ty update) as [[o ->]|(Hstep & _ & Hstepa & _)].
    + simpl in *. unfold existing_object_index. rewrite Hacc. apply succeeds_ret.
    + rewrite Hstep. rewrite Hstepa in Hacc.
      destruct (find_schema_in sch ty) as [os|] eqn:Hos; [|discriminate Hacc].
      apply andb_prop in Hacc as [Hacc Hall]. apply andb_prop in Hacc as [Hraw Hkey].
      apply (succeeds_create_or_update ctx _ (accepted sch ctx fuel) update) with (os := os);
        try assumption.
      intros u e He. now apply IH.
Qed.

End Succeeds.

(** *** More fuel accepts no less *)

Lemma forallb_impl {A} (f g : A -> bool) (l : list A) :
  (forall x, f x = true -> g x = true) -> forallb f l = true -> forallb g l = true.
Proof.
  intros Hfg Hall. apply forallb_forall. intros x Hx.
  apply Hfg. now apply (proj1 (forallb_forall f l) Hall).
Qed.

Lemma writable_impl (ok ok' : string -> id -> bool) (prop : Property) (w : id) :
  (forall u e, ok u e = true -> ok' u e = true) ->
  writable ok prop w = true -> writable ok' prop w = true.
Proof.
  intros Hok. unfold writable. destruct (is_null w); [reflexivity|].
  destruct (type prop) as [k|k|u|u]; try (intros Hw; exact Hw).
  - apply Hok.
  - destruct w; try discriminate. apply forallb_impl. intros e He.
    apply andb_prop in He as [Hnull He]. rewrite Hnull. now apply Hok.
Qed.

Lemma acceptable_impl (ctx : RLMAccessorContext) (ok ok' : string -> id -> bool)
    (created : bool) (os : ObjectSchema) (v : id) (ip : nat * Property) :
  (forall u e, ok u e = true -> ok' u e = true) ->
  acceptable ctx ok created os v ip = true -> acceptable ctx ok' created os v ip = true.
Proof.
  intros Hok. destruct ip as [col prop]. unfold acceptable.
  destruct (is_primary prop); [reflexivity|].
  destruct (is_absent (value_for_property v (name prop) col)); [|now apply writable_impl].
  destruct created; [|reflexivity].
  destruct (is_absent (default_value_for_property ctx os (name prop)));
    [intros Hr; exact Hr|now apply writable_impl].
Qed.

Lemma accepted_more_fuel (sch : list ObjectSchema) (ctx : RLMAccessorContext) (fuel : nat) :
  forall (ty : string) (v : id),
    accepted sch ctx fuel ty v = true -> accepted sch ctx (S fuel) ty v = true.
Proof.
  induction fuel as [|fuel IH]; intros ty v Hacc;
    destruct (resolve_cases ctx sch v ty false) as [[o ->]|(_ & _ & Hstep & _ & Hzero & _)];
    try exact Hacc; [congruence|].
  rewrite Hstep in Hacc. rewrite Hstep.
  destruct (find_schema_in sch ty) as [os|]; [|discriminate Hacc].
  apply andb_prop in Hacc as [Hacc Hall]. rewrite Hacc. cbn [andb].
  revert Hall. apply forallb_impl. intros ip. apply acceptable_impl. intros u e. apply IH.
Qed.

(** A value that updates a row without an error does so with any more
    fuel. *)
Lemma updatable_more_fuel (sch : list ObjectSchema) (ctx : RLMAccessorContext) (fuel : nat)
    (ty : string) (v : id) :
  updatable sch ctx fuel ty v = true -> updatable sch ctx (S fuel) ty v = true.
Proof.
  unfold updatable. destruct fuel as [|fuel]; [discriminate|].
  destruct (find_schema_in sch ty) as [os|]; [|discriminate].
  intros Hup. apply andb_prop in Hup as [Hraw Hall]. rewrite Hraw. cbn [andb].
  revert Hall. apply forallb_impl. intros ip. apply acceptable_impl. intros u e.
  apply accepted_more_fuel.
Qed.


(** ** Further properties of the inline members *)

(** *** Numeric coercions (lines 73-76, 82-85) *)

(** X1: a bool, a long long, a double and a float boxed by [from_*] come
    back unchanged from the [to_*] of the same kind. *)
Theorem scalar_round_trips :
  (forall x : bool, to_bool (from_bool x) = Return x)
  /\ (forall x : Z, to_long (from_long x) = Return x)
  /\ (forall x : double, to_double (from_double x) = Return x)
  /\ (forall x : float, to_float (from_float x) = Return x).
Proof.
  split; [apply to_bool_from_bool|]. split; [apply to_long_from_long|].
  split; [apply to_double_from_double|apply to_float_from_float].
Qed.

(** X2: the coercions do not ask for the exact kind: a boxed bool reads as
    the integer 1 or 0, a boxed integer other than [LLONG_MIN] reads as true
    exactly when it is not zero, and a bool that went through an integer
    comes back. *)
Theorem bool_through_long :
  (forall b : bool, to_long (from_bool b) = Return (if b then 1 else 0)%Z)
  /\ (forall z : Z, z <> LLONG_MIN -> to_bool (from_long z) = Return true <-> z <> 0%Z)
  /\ (forall b : bool,
        result_bind (to_long (from_bool b)) (fun z => to_bool (from_long z)) = Return b).
Proof.
  split; [reflexivity|]. split.
  - intros z Hmin. unfold to_bool, from_long, boolValue, number_boolValue. split.
    + intros Hr ->. rewrite bool_of_longlong_zero in Hr. discriminate Hr.
    + intros Hz. now rewrite (bool_of_longlong_nonzero z Hz Hmin).
  - intros []; simpl; unfold to_bool, from_long, boolValue, number_boolValue.
    + now rewrite bool_of_longlong_nonzero.
    + now rewrite bool_of_longlong_zero.
Qed.

Lemma numeric_receiver_cases (v : id) :
  numeric_receiver v = true
  \/ (numeric_receiver v = false
      /\ to_bool v = unrecognized_selector "boolValue"
      /\ to_long v = unrecognized_selector "longLongValue"
      /\ to_double v = unrecognized_selector "doubleValue"
      /\ to_float v = unrecognized_selector "floatValue").
Proof. destruct v; simpl; auto 10. Qed.

(** X3: the four numeric coercions accept the same values: each returns
    for [nil], a number or a string, and throws for every other value. *)
Theorem numeric_coercions_accept (v : id) :
  ((exists x, to_bool v = Return x) <-> numeric_receiver v = true)
  /\ ((exists x, to_long v = Return x) <-> numeric_receiver v = true)
  /\ ((exists x, to_double v = Return x) <-> numeric_receiver v = true)
  /\ ((exists x, to_float v = Return x) <-> numeric_receiver v = true).
Proof.
  destruct (numeric_receiver_cases v) as [Hv|(Hv & Hb & Hl & Hd & Hf)].
  - repeat split; intros _; try exact Hv; destruct v; try discriminate Hv;
      eexists; reflexivity.
  - rewrite Hb, Hl, Hd, Hf, Hv.
    repeat split; intros Hr; try discriminate Hr; destruct Hr as [x Hx]; discriminate Hx.
Qed.

(** X4: no typed coercion can be asked of the null sentinel: each of the
    four numeric coercions throws for a value that [is_null]. *)
Theorem coercion_of_null_throws (v : id) :
  is_null v = true ->
  (exists e, to_bool v = Throw e)
  /\ (exists e, to_long v = Throw e)
  /\ (exists e, to_double v = Throw e)
  /\ (exists e, to_float v = Throw e).
Proof.
  intros Hnull. destruct v; try discriminate Hnull.
  repeat split; eexists; reflexivity.
Qed.

(** *** Null and arrays (lines 82-86, 93-95) *)

Lemma from_string_cases (x : StringData) (v : id) :
  from_string x = Return v -> v = nil \/ exists text, v = NSString text.
Proof.
  destruct x as [[bytes|]]; unfold from_string, stringWithUTF8String; simpl; [|discriminate].
  destruct (NSString_fromUTF8 (c_string bytes)) as [text|]; intros Hv; injection Hv as <-.
  - right. eexists. reflexivity.
  - now left.
Qed.

(** X5: what [from_bool], [from_long], [from_double], [from_float] and
    [from_string] return is never the null sentinel and never an array. *)
Theorem from_scalar_not_null :
  (forall x, is_null (from_bool x) = false /\ allow_missing (from_bool x) = false)
  /\ (forall x, is_null (from_long x) = false /\ allow_missing (from_long x) = false)
  /\ (forall x, is_null (from_double x) = false /\ allow_missing (from_double x) = false)
  /\ (forall x, is_null (from_float x) = false /\ allow_missing (from_float x) = false)
  /\ (forall x v, from_string x = Return v -> is_null v = false /\ allow_missing v = false).
Proof.
  do 4 (split; [intros x; split; reflexivity|]).
  intros x v Hv. destruct (from_string_cases x v Hv) as [->|[text ->]]; split; reflexivity.
Qed.

(** X6: no value is both null and an array; the null sentinel itself is
    not an array. *)
Theorem null_is_not_array :
  (forall v : id, is_null v && allow_missing v = false)
  /\ allow_missing null_value = false.
Proof. split; [intros v; destruct v; reflexivity|reflexivity]. Qed.

(** *** Strings (line 86) *)

(** X7: [from_string] reads a prefix of the bytes and nothing else: the
    prefix holds no zero byte, what is left out is nothing or starts with a
    zero byte, the result is that of the prefix alone, and a prefix of
    bytes below 128 is returned as it is. *)
Theorem from_string_prefix (bytes : string) :
  exists kept rest,
    bytes = String.append kept rest
    /\ no_nul kept
    /\ (rest = EmptyString \/ exists r, rest = String Ascii.zero r)
    /\ from_string (mkStringData (Some bytes)) = from_string (mkStringData (Some kept))
    /\ (seven_bit kept ->
        from_string (mkStringData (Some bytes)) = Return (NSString kept)).
Proof.
  destruct (c_string_is_prefix bytes) as (rest & Heq & Hrest).
  exists (c_string bytes), rest. split; [exact Heq|].
  split; [apply c_string_has_no_nul|]. split; [exact Hrest|].
  split; [apply from_string_c_string|].
  intros Hkept. rewrite from_string_c_string.
  apply from_string_no_nul; [apply c_string_has_no_nul|exact Hkept].
Qed.

(** X8: among the strings of bytes below 128, [from_string] returns the
    bytes as they are exactly for those that hold no zero byte. *)
Theorem from_string_exact_iff (bytes : string) :
  seven_bit bytes ->
  from_string (mkStringData (Some bytes)) = Return (NSString bytes) <-> no_nul bytes.
Proof.
  intros Hb. split.
  - rewrite (from_string_seven_bit bytes Hb). intros Hr. injection Hr as Hc.
    rewrite <- Hc. apply c_string_has_no_nul.
  - intros Hn. now apply from_string_no_nul.
Qed.

(** X9: [from_string] returns exactly when the data pointer is not null;
    what it returns is an NSString or, for bytes that do not decode, [nil];
    for the null pointer it throws. *)
Theorem from_string_returns_iff (v : StringData) :
  ((exists x, from_string v = Return x) <-> data v <> None)
  /\ (forall x, from_string v = Return x -> x = nil \/ exists text, x = NSString text)
  /\ (data v = None -> from_string v = Throw (NSInvalidArgumentException "NULL cString")).
Proof.
  split; [|split; [apply from_string_cases|]].
  - destruct v as [[bytes|]]; unfold from_string, stringWithUTF8String; simpl.
    + split; [discriminate|]. intros _.
      destruct (NSString_fromUTF8 (c_string bytes)); eexists; reflexivity.
    + split; [intros [x Hx]; discriminate Hx|intros Hn; now contradiction Hn].
  - destruct v as [[bytes|]]; simpl; [discriminate|reflexivity].
Qed.

(** *** Enumeration (lines 65-70) *)

Lemma for_each_app {A} (l1 l2 : list A) (f : A -> M unit) (s : Realm) :
  for_each (l1 ++ l2) f s = (for_each l1 f ;;; for_each l2 f) s.
Proof.
  revert s. induction l1 as [|x l1 IH]; intros s; simpl; [reflexivity|].
  unfold bind. destruct (f x s) as [[[]|e] s1]; [|reflexivity].
  rewrite IH. reflexivity.
Qed.

(** X11: enumeration follows the shape of the array: nothing is visited for
    [nil] and for the empty array, whatever the visitor; one element is one
    call of the visitor; and an array that is two arrays put together is
    enumerated as the first and then, if that returned, the second. *)
Theorem list_enumerate_append (func : id -> M unit) (s : Realm) :
  list_enumerate nil func s = (Return tt, s)
  /\ list_enumerate (NSArray []) func s = (Return tt, s)
  /\ (forall x, list_enumerate (NSArray [x]) func s = (func x ;;; ret tt) s)
  /\ (forall l1 l2,
        list_enumerate (NSArray (l1 ++ l2)) func s
        = (list_enumerate (NSArray l1) func ;;; list_enumerate (NSArray l2) func) s).
Proof.
  split; [reflexivity|]. split; [reflexivity|]. split; [reflexivity|].
  intros l1 l2. rewrite list_enumerate_array, for_each_app.
  unfold bind. rewrite list_enumerate_array.
  destruct (for_each l1 func s) as [[[]|e] s1]; reflexivity.
Qed.

(** X12: a visitor that throws ends the enumeration: the elements after the
    one it threw for are not visited, and the exception and the realm are
    those the visitor left. *)
Theorem list_enumerate_stops_at_throw (l1 l2 : list id) (x : id) (func : id -> M unit)
    (s s1 s2 : Realm) (e : exception) :
  list_enumerate (NSArray l1) func s = (Return tt, s1) ->
  func x s1 = (Throw e, s2) ->
  list_enumerate (NSArray (l1 ++ x :: l2)) func s = (Throw e, s2).
Proof.
  rewrite !list_enumerate_array, for_each_app. intros Hl1 Hx.
  unfold bind. rewrite Hl1. simpl. unfold bind. now rewrite Hx.
Qed.

Lemma for_each_returns {A} (l : list A) (f : A -> M unit) :
  (forall x, x ∈ l -> forall s, (f x s).1 = Return tt) ->
  forall s, (for_each l f s).1 = Return tt.
Proof.
  induction l as [|x l IH]; intros Hf s; simpl; [reflexivity|].
  unfold bind. pose proof (Hf x (list_elem_of_here _ _) s) as Hx.
  destruct (f x s) as [[[]|e] s1]; simpl in Hx.
  - apply IH. intros y Hy. apply Hf. now right.
  - discriminate Hx.
Qed.

(** X13: the array test guards the enumeration: when [allow_missing v]
    holds and the visitor returns for every element of [v], in whatever
    realm it is called, [list_enumerate v] returns. *)
Theorem list_enumerate_of_array_returns (v : id) (func : id -> M unit) :
  allow_missing v = true ->
  (forall l x, v = NSArray l -> x ∈ l -> forall s, (func x s).1 = Return tt) ->
  forall s, (list_enumerate v func s).1 = Return tt.
Proof.
  intros Harr Hfunc s. destruct (allow_missing_array v Harr) as [l ->].
  rewrite list_enumerate_array. apply for_each_returns.
  intros x Hx. now apply (Hfunc l).
Qed.

(** X14: a value that cannot be enumerated, such as the null sentinel, a
    boxed scalar or a string, makes [list_enumerate] throw before the
    visitor is ever called, with the realm as it was. *)
Theorem list_enumerate_not_enumerable (v : id) :
  (enumerable v = false ->
     forall (func : id -> M unit) (s : Realm),
       list_enumerate v func s
       = (unrecognized_selector "countByEnumeratingWithState:objects:count:", s))
  /\ (is_null v = true -> enumerable v = false)
  /\ (forall b, enumerable (from_bool b) = false)
  /\ (forall z, enumerable (from_long z) = false)
  /\ (forall x w, from_string x = Return w -> w <> nil -> enumerable w = false).
Proof.
  split; [|split; [|split; [|split]]].
  - intros Hv func s. destruct v; try discriminate Hv; reflexivity.
  - intros Hnull. destruct v; try discriminate Hnull. reflexivity.
  - reflexivity.
  - reflexivity.
  - intros x w Hw Hnil. destruct (from_string_cases x w Hw) as [->|[text ->]];
      [now contradiction Hnil|reflexivity].
Qed.

End Properties.

(** * The properties on the example realm *)

Section Examples.
Import Example.
#[local] Existing Instance whole_scalars.
#[local] Existing Instance plain_util.

(** The string "a\0b" comes back as "a". *)
Example from_string_loses_bytes :
  result_bind (from_string (mkStringData (Some (String "a" (String Ascii.zero "b")))))
              to_string
  = Return (mkStringData (Some "a")).
Proof. reflexivity. Qed.

(** The upsert scenarios of the specification: the partial update, with the
    hooks called once for the name; the same with a friend that has a key
    of its own; the insert with a nested dog. *)
Example upsert_bob :
  let out := to_object_index 1 observing bob "Person" true ann in
  out.1 = Return 0
  /\ get_table out.2 "Person" = [[VInt 1; str "Bob"; VNull; VNull]]
  /\ observed out.2 = [WillChange "Person" 0 "name"; DidChange].
Proof. repeat split. Qed.

Example upsert_bob_with_friend :
  let out := to_object_index 2 observing bob_with_friend "Person" true ann in
  out.1 = Return 0
  /\ get_table out.2 "Person"
     = [[VInt 1; str "Bob"; VNull; VLink 1]; [VInt 2; str "Cy"; VNull; VNull]].
Proof. repeat split. Qed.

Example insert_ann_with_rex :
  let out := to_object_index 2 observing ann_with_rex "Person" true empty_realm in
  out.1 = Return 0
  /\ get_table out.2 "Dog" = [[str "Rex"]]
  /\ get_table out.2 "Person" = [[VInt 1; str "Ann"; VLink 0; VNull]].
Proof. repeat split. Qed.


(** Defaults are not consulted for the row that is updated: with a default
    friend that carries the key 1, the partial update of the specification
    names no nested row and goes through as before. *)
Example upsert_bob_defaulting :
  let out := to_object_index 1 defaulting bob "Person" true ann in
  nested_upserted (schema ann) defaulting 1 "Person" bob = []
  /\ out.1 = Return 0
  /\ get_table out.2 "Person" = [[VInt 1; str "Bob"; VNull; VNull]].
Proof. repeat split. Qed.

(** A nested value that omits a relationship takes the default when its row
    is created: the new friend gets the default friend, which carries the
    key 1, and the name of row 0, which the outer value omits, is written. *)
Example nested_default_names_row :
  let out := to_object_index 3 defaulting with_new_friend "Person" true ann in
  ("Person", VInt 1) ∈ nested_upserted (schema ann) defaulting 3 "Person" with_new_friend
  /\ out.1 = Return 0
  /\ get_table out.2 "Person"
     = [[VInt 1; str "Zed"; VNull; VLink 1]; [VInt 2; str "Cy"; VNull; VLink 0]].
Proof.
  split; [|repeat split].
  change (("Person", VInt 1) ∈ [("Person", VInt 2); ("Person", VInt 1)]).
  apply list_elem_of_further, list_elem_of_here.
Qed.


(** C2 on the example realm: a dog handle asked for as a dog, and as a person. *)
Lemma handle_resolution_witness :
  to_object_index 0 observing (dog 1) "Dog" true ann = (Return 1%nat, ann)
  /\ (exists e, to_object_index 0 observing (dog 1) "Person" true ann = (Throw e, ann)
                /\ error_kind e = Some TypeMismatch)
  /\ (exists e, to_existing_object_index observing (dog 1) ann = (Throw e, ann)
                /\ error_kind e = Some TypeMismatch).
Proof.
  pose proof (handle_resolution 0 observing (mkObject "Dog" 1) "Dog" true ann) as HDog.
  pose proof (handle_resolution 0 observing (mkObject "Dog" 1) "Person" true ann) as HPerson.
  split; [apply HDog; reflexivity|].
  split; [apply HPerson; discriminate|].
  apply HPerson. discriminate.
Defined.

(** C5 on the example realm: two dogs appended to the list of the kennel. *)
Lemma list_enumerate_forward_pass_witness :
  exists s', list_enumerate (NSArray [dog 2; dog 1])
               (fun e => push_cell "Kennel" 0 0 (link_of e)) kennel = (Return tt, s')
             /\ get_cell s' "Kennel" 0 0 = Some (VList [VLink 0; VLink 2; VLink 1]).
Proof.
  destruct (list_enumerate_forward_pass (NSArray [dog 2; dog 1])
              (fun e => push_cell "Kennel" 0 0 (link_of e)) kennel) as [_ Hpush].
  apply (Hpush [dog 2; dog 1] "Kennel" 0%nat 0%nat link_of [VLink 0]); reflexivity.
Defined.

(** X4 on the null sentinel itself. *)
Lemma coercion_of_null_throws_witness :
  (exists e, to_bool null_value = Throw e)
  /\ (exists e, to_long null_value = Throw e)
  /\ (exists e, to_double null_value = Throw e)
  /\ (exists e, to_float null_value = Throw e).
Proof. apply (coercion_of_null_throws null_value). reflexivity. Defined.

(** X8 on the name "Ann". *)
Lemma from_string_exact_iff_witness :
  from_string (mkStringData (Some "Ann")) = Return (NSString "Ann") <-> no_nul "Ann".
Proof. apply (from_string_exact_iff "Ann"). repeat constructor. Defined.

(** Bytes that are not UTF-8 give [nil]: a lone continuation byte. *)
Example from_string_not_utf8 :
  from_string (mkStringData (Some (String (ascii_of_nat 128) EmptyString))) = Return nil.
Proof. reflexivity. Qed.

(** X12 on the kennel: the second element is refused, the third is never
    listed. *)
Lemma list_enumerate_stops_at_throw_witness :
  let out := list_enumerate (NSArray ([dog 2] ++ NSNull :: [dog 1])) list_dog kennel in
  out.1 = Throw (accessor_error InvalidReference "not a dog")
  /\ get_cell out.2 "Kennel" 0 0 = Some (VList [VLink 0; VLink 2]).
Proof.
  set (s1 := (list_enumerate (NSArray [dog 2]) list_dog kennel).2).
  rewrite (list_enumerate_stops_at_throw [dog 2] [dog 1] NSNull list_dog kennel s1 s1
             (accessor_error InvalidReference "not a dog") eq_refl eq_refl).
  split; reflexivity.
Defined.

(** X13 on the kennel: an array of dogs and a visitor that lists dogs and
    nothing else. *)
Lemma list_enumerate_of_array_returns_witness :
  (list_enumerate (NSArray [dog 2; dog 1]) list_dog kennel).1 = Return tt.
Proof.
  apply (list_enumerate_of_array_returns (NSArray [dog 2; dog 1])).
  - reflexivity.
  - intros l x Hl Hx s. injection Hl as <-.
    apply elem_of_cons in Hx as [->|Hx]; [reflexivity|].
    apply list_elem_of_singleton in Hx as ->. reflexivity.
Defined.

(** X14 on the null sentinel: nothing is listed. *)
Lemma list_enumerate_not_enumerable_witness :
  list_enumerate null_value list_dog kennel
  = (unrecognized_selector "countByEnumeratingWithState:objects:count:", kennel).
Proof.
  destruct (list_enumerate_not_enumerable null_value) as [Hthrows _].
  apply Hthrows. reflexivity.
Defined.

End Examples.
